(** * Report generation of the football-academy backend (core/pdf.py)

    A shallow embedding of the reporting module: the rating-label helpers,
    the bilingual label renderers, the image resolvers, the Arabic font
    registration and the two report builders, with the properties the
    specification states about them. *)

From Stdlib Require Import ZArith Ascii String DecimalString SpecFloat.
From stdpp Require Import base option list gmap strings.

Local Open Scope string_scope.
Local Open Scope list_scope.
Local Open Scope Z_scope.

(** ** Fragments of the Python runtime the module relies on *)

Module Py.

(** Exception classes that reach the module's handlers.  All of them derive
    from [Exception], which is what the handlers of pdf.py catch; [OSError]
    is the one class a handler singles out. *)
Inductive exn : Type :=
| OSError | ValueError | TypeError | AttributeError | OverflowError
| ImportError | NotImplementedError | RuntimeError.

Definition is_OSError (e : exn) : bool :=
  match e with OSError => true | _ => false end.

(** Outcome of evaluating an expression: a value, or a raised exception. *)
Inductive result (A : Type) : Type :=
| Ok (a : A)
| Raise (e : exn).
Arguments Ok {A} a.
Arguments Raise {A} e.

(** The values the rating helpers receive: [None], an integer field of an
    evaluation (or the result of [round]), or a string. *)
Inductive value : Type :=
| VNone
| VInt (n : Z)
| VStr (s : string).

(** A double as Python sees it: sign, integral significand and binary
    exponent, an infinity or a NaN. *)
Definition float : Type := spec_float.

(** The decimal text of an integer. *)
Definition decimal (n : Z) : string := NilZero.string_of_int (Z.to_int n).

(** The longest decimal text [str] converts an integer to
    (sys.int_info.default_max_str_digits). *)
Definition int_max_str_digits : Z := 4300.

(** [str(n)] for an integer: its decimal text; an integer of more than
    [int_max_str_digits] digits, that is one whose absolute value reaches
    [str_limit], raises [ValueError]. *)
Definition str_limit : Z := 10 ^ int_max_str_digits.

Definition str_of_int (n : Z) : result string :=
  if Z.abs n <? str_limit then Ok (decimal n) else Raise ValueError.

(** [str(v)]. *)
Definition str (v : value) : result string :=
  match v with
  | VNone => Ok "None"
  | VInt n => str_of_int n
  | VStr s => Ok s
  end.

(** *** [int(s)] for a string, decimal syntax

    Surrounding ASCII whitespace is dropped, one sign is allowed, and the
    digits may be grouped by single underscores.  Bytes outside ASCII are
    never digits here. *)
Definition is_space (c : ascii) : bool :=
  let n := nat_of_ascii c in
  ((9 <=? n) && (n <=? 13))%nat || (n =? 32)%nat.

Definition digit_of (c : ascii) : option Z :=
  let n := nat_of_ascii c in
  if ((48 <=? n) && (n <=? 57))%nat then Some (Z.of_nat n - 48) else None.

Fixpoint lstrip_space (s : string) : string :=
  match s with
  | String c s' => if is_space c then lstrip_space s' else s
  | EmptyString => EmptyString
  end.

Fixpoint rstrip_space (s : string) : string :=
  match s with
  | String c s' =>
      match rstrip_space s' with
      | EmptyString => if is_space c then EmptyString else String c EmptyString
      | r => String c r
      end
  | EmptyString => EmptyString
  end.

Definition strip_space (s : string) : string := rstrip_space (lstrip_space s).

(** [digits acc after_digit s]: the number read so far is [acc];
    [after_digit] says that the previous character was a digit, so that an
    underscore may follow. *)
Fixpoint digits (acc : Z) (after_digit : bool) (s : string) : option Z :=
  match s with
  | EmptyString => if after_digit then Some acc else None
  | String c s' =>
      match digit_of c with
      | Some d => digits (10 * acc + d) true s'
      | None =>
          if (nat_of_ascii c =? 95)%nat && after_digit
          then digits acc false s'
          else None
      end
  end.

Definition int_of_str (s : string) : result Z :=
  let body := strip_space s in
  let parsed :=
    match body with
    | String "-" r => Z.opp <$> digits 0 false r
    | String "+" r => digits 0 false r
    | r => digits 0 false r
    end in
  match parsed with
  | Some n => Ok n
  | None => Raise ValueError
  end.

(** [int(v)]. *)
Definition int (v : value) : result Z :=
  match v with
  | VNone => Raise TypeError
  | VInt n => Ok n
  | VStr s => int_of_str s
  end.

(** [round(x)] with one argument: the nearest integer, ties to the even
    one; a NaN raises [ValueError], an infinity [OverflowError]. *)
Definition round_half_even (m : Z) (k : Z) : Z :=
  (* the nearest integer to m / 2^k, for 0 < k *)
  let q := Z.shiftr m k in
  let r := m - Z.shiftl q k in
  let half := Z.shiftl 1 (k - 1) in
  if r <? half then q
  else if half <? r then q + 1
  else if Z.even q then q else q + 1.

Definition round (x : float) : result Z :=
  match x with
  | S754_zero _ => Ok 0
  | S754_infinity _ => Raise OverflowError
  | S754_nan => Raise ValueError
  | S754_finite s m e =>
      let mag := if 0 <=? e then Z.shiftl (Z.pos m) e
                 else round_half_even (Z.pos m) (- e) in
      Ok (if s then - mag else mag)
  end.

End Py.
Import Py.

(** ** Rating label helpers (1-5) *)

Definition RATING_LABELS : gmap Z string :=
  list_to_map
    [ (1, "Bad"); (2, "Not bad"); (3, "Good"); (4, "Very Good"); (5, "Excellent") ].

(** The marker the helpers return for a value they cannot label. *)
Definition unknown_marker : string := "—".

Definition rating_label (v : value) : string :=
  match v with
  | VNone => unknown_marker
  | _ =>
      match Py.int v with
      | Ok n =>
          (* the default, str(value), is evaluated before the lookup *)
          match Py.str v with
          | Ok text => default text (RATING_LABELS !! n)
          | Raise _ => unknown_marker
          end
      | Raise _ => unknown_marker
      end
  end.

Definition rating_label_from_average (avg : option float) : string :=
  match avg with
  | None => unknown_marker
  | Some a =>
      (* float(avg) is the identity on a float *)
      match Py.round a with
      | Ok n => rating_label (VInt (Z.max 1 (Z.min 5 n)))
      | Raise _ => unknown_marker
      end
  end.

(** ** Strings and paths *)

(** The double quote of the markup, as a one-character string. *)
Definition dq : string := String "034"%char EmptyString.

(** [s.lstrip(c)] for a single character. *)
Fixpoint lstrip_char (c : ascii) (s : string) : string :=
  match s with
  | String a s' => if Ascii.eqb a c then lstrip_char c s' else s
  | EmptyString => EmptyString
  end.

(** Truthiness of a string: a string is true when it is not empty. *)
Definition truthy (s : string) : bool :=
  match s with EmptyString => false | _ => true end.

(** *** Paths as pathlib keeps them (POSIX flavour)

    A path is a root and its components; the pieces between slashes that
    are empty or "." are dropped, ".." is kept; two leading slashes,
    and only two, are a root of their own. *)
Fixpoint pieces (s : string) : list string :=
  match s with
  | EmptyString => [EmptyString]
  | String c s' =>
      if Ascii.eqb c "/" then EmptyString :: pieces s'
      else match pieces s' with
           | piece :: rest => String c piece :: rest
           | [] => [String c EmptyString]
           end
  end.

Definition path_parts (s : string) : list string :=
  List.filter (λ piece, negb (String.eqb piece "" || String.eqb piece ".")) (pieces s).

Definition path_root (s : string) : string :=
  if String.prefix "//" s && negb (String.prefix "///" s) then "//"
  else if String.prefix "/" s then "/"
  else "".

(** [str(path)]. *)
Definition path_str (root : string) (parts : list string) : string :=
  match parts with
  | [] => if truthy root then root else "."
  | _ => root +:+ String.concat "/" parts
  end.

(** [str(Path(a) / b)]: an absolute right operand replaces the left one. *)
Definition path_join (a b : string) : string :=
  if String.prefix "/" b then path_str (path_root b) (path_parts b)
  else path_str (path_root a) (path_parts a ++ path_parts b).

(** [str(Path(p).parent)]. *)
Definition path_parent (p : string) : string :=
  path_str (path_root p) (removelast (path_parts p)).

(** [t in s] for strings, and its executable form. *)
Definition contains (s t : string) : Prop :=
  ∃ pre post, s = pre +:+ t +:+ post.

Fixpoint is_prefix (t s : string) : bool :=
  match t, s with
  | EmptyString, _ => true
  | String a t', String b s' => Ascii.eqb a b && is_prefix t' s'
  | String _ _, EmptyString => false
  end.

Fixpoint is_infix (t s : string) : bool :=
  is_prefix t s ||
  match s with
  | String _ s' => is_infix t s'
  | EmptyString => false
  end.

(** ** Effects: the world the report code touches *)

Definition bytes : Type := list Byte.byte.

(** What the module does to the outside, in program order. *)
Inductive event : Type :=
| EvFieldOpen (name : string)
| EvFieldRead (name : string)
| EvFieldClose (name : string)
| EvExists (path : string)
| EvIsFile (path : string)
| EvImageFile (path : string)
| EvUrlOpen (url : string)
| EvTTFont (path : string)
| EvRegisterFont (name path : string).

(** Process-wide mutable state: the font registry of pdfmetrics and the
    TrueType search path of rl_config. *)
Record World : Type := mkWorld {
  registered_fonts : gset string;
  TTFSearchPath : gset string
}.

(** A computation: from a world to an outcome, the world left behind and the
    events emitted.  Effects done before a raise are kept. *)
Definition M (A : Type) : Type := World → result A * World * list event.

Definition ret {A} (a : A) : M A := λ w, (Ok a, w, []).

Definition raise {A} (e : exn) : M A := λ w, (Raise e, w, []).

Definition bind {A B} (m : M A) (f : A → M B) : M B := λ w,
  match m w with
  | (Ok a, w1, t1) => let '(r, w2, t2) := f a w1 in (r, w2, t1 ++ t2)
  | (Raise e, w1, t1) => (Raise e, w1, t1)
  end.

#[global] Instance M_ret : MRet M := @ret.
#[global] Instance M_bind : MBind M := λ A B f m, bind m f.

(** [try: m except Exception as e: h e]. *)
Definition try_except {A} (m : M A) (h : exn → M A) : M A := λ w,
  match m w with
  | (Ok a, w1, t1) => (Ok a, w1, t1)
  | (Raise e, w1, t1) => let '(r, w2, t2) := h e w1 in (r, w2, t1 ++ t2)
  end.

(** [try: m finally: f]: [f] always runs; when it raises, its exception
    replaces the outcome of [m]. *)
Definition try_finally {A} (m : M A) (f : M unit) : M A := λ w,
  let '(r, w1, t1) := m w in
  match f w1 with
  | (Ok _, w2, t2) => (r, w2, t1 ++ t2)
  | (Raise e, w2, t2) => (Raise e, w2, t1 ++ t2)
  end.

(** An access to the outside with a known outcome. *)
Definition io {A} (ev : event) (r : result A) : M A := λ w, (r, w, [ev]).

(** A pure call that may raise. *)
Definition lift {A} (r : result A) : M A := λ w, (r, w, []).

Definition get_world : M World := λ w, (Ok w, w, []).
Definition put_world (w' : World) : M unit := λ _, (Ok tt, w', []).

(** A total update of the world, recorded as one event. *)
Definition update_world (ev : event) (f : World → World) : M unit :=
  λ w, (Ok tt, f w, [ev]).

(** ** Data model *)

(** A FileField value of the ORM.  The stored name is data.  [path] and
    [url] are properties that ask the storage: a storage without local
    paths raises NotImplementedError on [path], one without a base URL
    raises ValueError on [url]; an object that lacks the attribute raises
    AttributeError.  [open], [read] and [close] go to the storage and may
    raise. *)
Record FieldFile : Type := mkFieldFile {
  ff_name : string;            (* stored name; empty when no file is set *)
  ff_path : result string;     (* field.path *)
  ff_url : result string;      (* field.url *)
  ff_open : result unit;
  ff_read : result bytes;
  ff_close : result unit
}.

(** [getattr(obj, name, None)]: only AttributeError gives the default; any
    other exception of the property reaches the caller. *)
Definition getattr_or_none {A} (attribute : result A) : result (option A) :=
  match attribute with
  | Ok a => Ok (Some a)
  | Raise AttributeError => Ok None
  | Raise e => Raise e
  end.

(** [bool(field)]: a field is true when it has a name. *)
Definition field_set (f : FieldFile) : bool := truthy (ff_name f).

(** What an Image flowable draws from: a file name, opened when the
    document is built, or an open file. *)
Inductive ImageSource : Type :=
| ImgFile (path : string)
| ImgData (data : bytes).

(** The Image flowable. *)
Record Image : Type := mkImage {
  img_src : ImageSource;
  img_width : Z;
  img_height : Z;
  hAlign : option string
}.

(** What the module hands to [Image(...)] as its first argument: a file
    name, or an ImageReader made from bytes. *)
Inductive ImageArg : Type :=
| FileName (path : string)
| Reader (data : bytes).

(** [Image(arg, width=..., height=...)].  The constructor keeps a file name
    (or an object with a [read] method); of anything else it takes
    [os.path.splitext], which raises TypeError: an ImageReader is refused. *)
Definition new_Image (arg : ImageArg) (width height : Z) : result Image :=
  match arg with
  | FileName path => Ok (mkImage (ImgFile path) width height None)
  | Reader _ => Raise TypeError
  end.

Record Evaluation : Type := mkEvaluation {
  evaluated_at : Z;
  updated_at : Z;
  ball_control : value; passing : value; dribbling : value; shooting : value;
  using_both_feet : value;
  speed : value; agility : value; endurance : value; strength : value;
  positioning : value; decision_making : value; game_awareness : value;
  teamwork : value;
  respect : value; sportsmanship : value; confidence : value; leadership : value;
  attendance_and_punctuality : value;
  average_rating : option float;
  ev_coach : string;           (* str(ev.coach) *)
  notes : string
}.

Record Player : Type := mkPlayer {
  p_name : string;
  p_group_name : string;       (* player.group.name *)
  p_age : Z;                   (* an integer column *)
  p_phone : option string;     (* None: the attribute is missing *)
  photo : FieldFile;
  (* the related manager: missing, or a query that raises or yields rows *)
  evaluations : option (result (list Evaluation))
}.

Record Group : Type := mkGroup {
  g_name : string;
  g_coach : string;            (* str(group.coach) *)
  players : list Player        (* group.players ... .all(), in query order *)
}.

(** The settings and the outside the module reads. *)
Record Env : Type := mkEnv {
  MEDIA_ROOT : string;
  PUBLIC_BASE_URL : string;    (* empty when not configured *)
  LOGO_URL : string;           (* empty when not configured *)
  BASE_DIR : option string;    (* Path(settings.BASE_DIR).resolve(), when set *)
  module_dir : string;         (* Path(__file__).resolve().parent *)
  fs_exists : string → result bool;
  fs_is_file : string → result bool;
  image_reader_file : string → result unit;   (* ImageReader(path) *)
  image_reader_bytes : bytes → result unit;   (* ImageReader(BytesIO(data)) *)
  urlopen : string → result bytes;            (* urlopen(url).read() *)
  urljoin : string → string → string;
  ttfont : string → result unit;              (* TTFont(name, path) *)
  (* arabic_reshaper and bidi when importable: reshape, then get_display *)
  shaper : option (string → result string)
}.

Section Report.

Context (env : Env).

(** ** Image resolvers *)

(** Return an Image flowable if the resource is readable; otherwise None. *)
Definition _safe_image (path : string) (width height : Z) : M (option Image) :=
  try_except
    (ex ← io (EvExists path) (fs_exists env path);
     if negb ex then ret None else
     isf ← io (EvIsFile path) (fs_is_file env path);
     if negb isf then ret None else
     io (EvImageFile path) (image_reader_file env path);;
     img ← lift (new_Image (FileName path) width height);
     ret (Some img))
    (λ _, ret None).

(** Return an Image from an HTTP(S) URL if retrievable; otherwise None. *)
Definition _url_image (url : string) (width height : Z) : M (option Image) :=
  try_except
    (if negb (truthy url)
        || negb (String.prefix "http://" url || String.prefix "https://" url)
     then ret None else
     data ← io (EvUrlOpen url) (urlopen env url);
     lift (image_reader_bytes env data);;
     img ← lift (new_Image (Reader data) width height);
     ret (Some img))
    (λ _, ret None).

(** Return an Image from a FieldFile, reading bytes via storage. *)
Definition _image_from_field (field : FieldFile) (width height : Z)
  : M (option Image) :=
  try_except
    (io (EvFieldOpen (ff_name field)) (ff_open field);;
     data ← try_finally
              (io (EvFieldRead (ff_name field)) (ff_read field))
              (io (EvFieldClose (ff_name field)) (ff_close field));
     lift (image_reader_bytes env data);;
     img ← lift (new_Image (Reader data) width height);
     ret (Some img))
    (λ _, ret None).

Definition logo_candidates : list string :=
  let base := module_dir env in
  let backend_root := path_parent base in
  let base_dir := default backend_root (BASE_DIR env) in
  [ path_join base "logo.png";
    path_join (path_join base "fonts") "logo.png";
    path_join (path_join backend_root "core") "logo.png";
    path_join (path_join (path_join backend_root "core") "fonts") "logo.png";
    path_join (path_join (path_join (path_parent base_dir)
                 "football-academy-frontend") "public") "logo.png";
    path_join (path_join (path_join (path_parent (path_parent base_dir))
                 "football-academy-frontend") "public") "logo.png" ].

Definition align_left (img : Image) : Image :=
  mkImage (img_src img) (img_width img) (img_height img) (Some "LEFT").

(** The loop of [_logo_image] over the candidate files. *)
Fixpoint first_logo (candidates : list string) (width height : Z)
  : M (option Image) :=
  match candidates with
  | [] => ret None
  | p :: rest =>
      img ← _safe_image p width height;
      match img with
      | Some i => ret (Some (align_left i))
      | None => first_logo rest width height
      end
  end.

(** Return the academy logo Image flowable if found. *)
Definition _logo_image (width height : Z) : M (option Image) :=
  found ← try_except (first_logo logo_candidates width height) (λ _, ret None);
  match found with
  | Some i => ret (Some i)
  | None =>
      (* Final fallback: configurable logo URL *)
      try_except
        (img ← _url_image (LOGO_URL env) width height;
         match img with
         | Some i => ret (Some (align_left i))
         | None => ret None
         end)
        (λ _, ret None)
  end.

(** The path tried after the storage: [img_path], the value of
    [getattr(photo, "path", None)], or, when that is None or empty, the
    stored name under the media root. *)
Definition local_path (p : FieldFile) (img_path : option string) : string :=
  match img_path with
  | Some path => if truthy path then path
                 else path_join (MEDIA_ROOT env) (ff_name p)
  | None => path_join (MEDIA_ROOT env) (ff_name p)
  end.

(** The URL tried last: PUBLIC_BASE_URL joined with [url], the value of
    [getattr(photo, "url", None)], when both are there and the URL is a
    relative one. *)
Definition media_url (url : option string) : option string :=
  match url with
  | Some url =>
      if truthy url && truthy (PUBLIC_BASE_URL env) && String.prefix "/" url
      then Some (urljoin env (PUBLIC_BASE_URL env +:+ "/") (lstrip_char "/" url))
      else None
  | None => None
  end.

(** The photo block of both builders (the loop body of build_group_report
    and the header of build_player_report run the same statements, at
    50x50 and 100x100).  The two [getattr] calls stand outside every
    [try]. *)
Definition photo_image (p : FieldFile) (width height : Z) : M (option Image) :=
  if field_set p then
    (* Prefer storage bytes (works for local and remote storages) *)
    img ← _image_from_field p width height;
    match img with
    | Some i => ret (Some i)
    | None =>
        (* Fallback to local filesystem path *)
        img_path ← lift (getattr_or_none (ff_path p));
        img ← _safe_image (local_path p img_path) width height;
        match img with
        | Some i => ret (Some i)
        | None =>
            (* Last resort: PUBLIC_BASE_URL + relative media URL *)
            url ← lift (getattr_or_none (ff_url p));
            match media_url url with
            | Some u => _url_image u width height
            | None => ret None
            end
        end
    end
  else ret None.

(** ** Arabic font registration and shaping *)

Definition local_fonts : list string :=
  [ path_join (path_join (module_dir env) "fonts") "NotoNaskhArabic-Regular.ttf";
    path_join (path_join (module_dir env) "fonts") "DejaVuSans.ttf" ].

Definition windows_candidates : list string :=
  [ "C:\\Windows\\Fonts\\NotoNaskhArabic-Regular.ttf";
    "C:\\Windows\\Fonts\\arial.ttf";
    "C:\\Windows\\Fonts\\tahoma.ttf";
    "C:\\Windows\\Fonts\\times.ttf";
    "C:\\Windows\\Fonts\\segoeui.ttf";
    "C:\\Windows\\Fonts\\TraditionalArabic.ttf" ].

Definition linux_candidates : list string :=
  [ "/usr/share/fonts/truetype/noto/NotoNaskhArabic-Regular.ttf";
    "/usr/share/fonts/opentype/noto/NotoNaskhArabic-Regular.ttf";
    "/usr/share/fonts/truetype/dejavu/DejaVuSans.ttf";
    "/usr/share/fonts/truetype/ttf-dejavu/DejaVuSans.ttf";
    "/usr/share/fonts/truetype/freefont/FreeSans.ttf" ].

Definition mac_candidates : list string :=
  [ "/Library/Fonts/Arial Unicode.ttf";
    "/Library/Fonts/Arial Unicode MS.ttf";
    "/Library/Fonts/Tahoma.ttf";
    "/Library/Fonts/DejaVuSans.ttf" ].

Definition font_candidates : list string :=
  local_fonts ++ windows_candidates ++ linux_candidates ++ mac_candidates.

(** [pdfmetrics.registerFont(TTFont(name, path))]: the font file is parsed,
    which may raise, and the name enters the registry. *)
Definition registerFont (name path : string) : M unit :=
  io (EvTTFont path) (ttfont env path);;
  update_world (EvRegisterFont name path)
    (λ w, mkWorld ({[ name ]} ∪ registered_fonts w) (TTFSearchPath w)).

(** The loop of [_register_arabic_font] over the candidate files. *)
Fixpoint first_font (candidates : list string) : M string :=
  match candidates with
  | [] => ret "Helvetica"
  | path :: rest =>
      got ← try_except
               (ex ← io (EvExists path) (fs_exists env path);
                if ex : bool then registerFont "ArabicFont" path;; ret true
                else ret false)
               (λ _, ret false);   (* Try next candidate *)
      if got : bool then ret "ArabicFont" else first_font rest
  end.

(** Register and return an Arabic-capable TrueType font name. *)
Definition _register_arabic_font : M string :=
  w ← get_world;
  (* Reuse previously registered font if available *)
  if bool_decide ("ArabicFont" ∈ registered_fonts w) then ret "ArabicFont" else
  put_world (mkWorld (registered_fonts w)
               (TTFSearchPath w ∪ {[ path_join (module_dir env) "fonts" ]}));;
  first_font font_candidates.

(** Shape Arabic text using arabic_reshaper and python-bidi if available. *)
Definition _shape_arabic (text : string) : string :=
  match shaper env with
  | None => text
  | Some shape =>
      if negb (truthy text) then text
      else match shape text with
           | Ok shaped => shaped
           | Raise _ => text
           end
  end.

End Report.

(** ** Translation tables *)

(** Arabic translations for skill labels. *)
Definition SKILL_TRANSLATIONS_AR : gmap string string :=
  list_to_map
    [ ("Ball control", "التحكم في الكرة");
      ("Passing", "التمرير");
      ("Dribbling", "المراوغة");
      ("Shooting", "التسديد");
      ("Using both feet", "استخدام القدمين");
      ("Speed", "السرعة");
      ("Agility", "الرشاقة");
      ("Endurance", "التحمل");
      ("Strength", "القوة");
      ("Positioning", "التمركز");
      ("Decision making", "اتخاذ القرار");
      ("Game awareness", "الوعي بالمباراة");
      ("Teamwork", "العمل الجماعي");
      ("Respect", "الاحترام");
      ("Sportsmanship", "الروح الرياضية");
      ("Confidence", "الثقة");
      ("Leadership", "القيادة");
      ("Attendance and punctuality", "الانضباط والالتزام بالمواعيد") ].

(** Section title translations (bilingual headers). *)
Definition SECTION_TRANSLATIONS_AR : gmap string string :=
  list_to_map
    [ ("Technical Skills", "مهارات تقنية");
      ("Physical Abilities", "القدرات البدنية");
      ("Technical Understanding", "الفهم الفني");
      ("Psychological and Social", "الجوانب النفسية والاجتماعية");
      ("Average Level", "المستوى العام") ].

(** Arabic translations for rating labels. *)
Definition RATING_TRANSLATIONS_AR : gmap string string :=
  list_to_map
    [ ("Bad", "سيئ");
      ("Not bad", "ليس سيئًا");
      ("Good", "جيد");
      ("Very Good", "جيد جدًا");
      ("Excellent", "ممتاز") ].

(** [d.get(key)] followed by a truth test: the translation when there is one
    and it is not empty. *)
Definition translation (table : gmap string string) (key : string) : option string :=
  match table !! key with
  | Some tr => if truthy tr then Some tr else None
  | None => None
  end.

(** Return label with Arabic translation appended in parentheses when
    available. *)
Definition with_translation (label : string) : string :=
  match translation SKILL_TRANSLATIONS_AR label with
  | Some tr => label +:+ " (" +:+ tr +:+ ")"
  | None => label
  end.

(** [<font name="...">text</font>]. *)
Definition font_tag (name text : string) : string :=
  "<font name=" +:+ dq +:+ name +:+ dq +:+ ">" +:+ text +:+ "</font>".

Section Bilingual.

Context (env : Env).

Definition with_translation_text (label : string) : string :=
  match translation SKILL_TRANSLATIONS_AR label with
  | Some tr => label +:+ " (" +:+ _shape_arabic env tr +:+ ")"
  | None => label
  end.

(** [arabic_font_name or _register_arabic_font()]. *)
Definition arabic_font_or_register (arabic_font_name : option string) : M string :=
  match arabic_font_name with
  | Some name => if truthy name then ret name else _register_arabic_font env
  | None => _register_arabic_font env
  end.

(** Return inline bilingual HTML: English - Arabic (shaped), with fonts. *)
Definition with_translation_html (label english_font_name : string)
    (arabic_font_name : option string) : M string :=
  ar_font ← arabic_font_or_register arabic_font_name;
  match translation SKILL_TRANSLATIONS_AR label with
  | Some tr =>
      let shaped := _shape_arabic env tr in
      ret (font_tag english_font_name label +:+ " - " +:+ font_tag ar_font shaped)
  | None => ret (font_tag english_font_name label)
  end.

Definition with_section_title_text (title : string) : string :=
  match translation SECTION_TRANSLATIONS_AR title with
  | Some tr => title +:+ " (" +:+ _shape_arabic env tr +:+ ")"
  | None => title
  end.

(** Inline bilingual section title: English / Arabic (shaped). *)
Definition with_section_title_html (title english_font_name : string)
    (arabic_font_name : option string) : M string :=
  ar_font ← arabic_font_or_register arabic_font_name;
  match translation SECTION_TRANSLATIONS_AR title with
  | Some tr =>
      let shaped := _shape_arabic env tr in
      ret (font_tag english_font_name title +:+ " / " +:+ font_tag ar_font shaped)
  | None => ret (font_tag english_font_name title)
  end.

Definition rating_bilingual_html (v : value) : M string :=
  let label := rating_label v in
  match translation RATING_TRANSLATIONS_AR label with
  | Some ar =>
      ar_font ← _register_arabic_font env;
      ret (font_tag "Helvetica" label +:+ " / " +:+ font_tag ar_font (_shape_arabic env ar))
  | None => ret (font_tag "Helvetica" label)
  end.

Definition rating_bilingual_html_from_average (avg : option float) : M string :=
  rating_bilingual_html (VStr (rating_label_from_average avg)).

End Bilingual.

(** ** The document tree handed to the layout engine *)

Record Style : Type := mkStyle {
  style_name : string;
  fontName : string;
  fontSize : Z;
  leading : Z;
  alignment : Z
}.

(** A Paragraph flowable: its markup and its style.  The library parses the
    markup when the flowable is made; the stories below are those of texts
    it accepts (names, notes and coach names go into the markup as they
    are stored). *)
Record Paragraph : Type := mkParagraph {
  para_text : string;
  para_style : Style
}.

Inductive Cell : Type :=
| CVal (v : value)
| CImage (i : Image)
| CPara (p : Paragraph).

(** The four command lists given to TableStyle: the header tables (top
    aligned, no padding; the player header also right-aligns its photo) and
    the grids (grey grid, shaded first row; the rating grids also pad). *)
Inductive TableStyle : Type :=
| HeaderStyle (photo_right : bool)
| GridStyle (padded : bool).

Inductive Flowable : Type :=
| FParagraph (p : Paragraph)
| FSpacer (width height : Z)
| FTable (data : list (list Cell)) (colWidths : list (option Z))
         (repeatRows : nat) (style : TableStyle).

(** SimpleDocTemplate(buffer, pagesize=A4, ...): the four margins when given. *)
Record DocTemplate : Type := mkDoc { margins : option Z }.

(** The layout library: its sample style sheet, and [build], which lays a
    story out and writes the document; it returns the bytes it wrote to the
    buffer and the exception it raised, if any. *)
Record Layout : Type := mkLayout {
  sample_style : string → Style;
  doc_build : DocTemplate → list Flowable → bytes * option exn
}.


(** [style.clone(name)] followed by the assignments of the source. *)
Definition clone (s : Style) (name : string) : Style :=
  mkStyle name (fontName s) (fontSize s) (leading s) (alignment s).
Definition set_size (s : Style) (size lead : Z) : Style :=
  mkStyle (style_name s) (fontName s) size lead (alignment s).

(** [img if img else ""]. *)
Definition image_cell (img : option Image) : Cell :=
  match img with
  | Some i => CImage i
  | None => CVal (VStr "")
  end.

Definition text_cell (s : string) : Cell := CVal (VStr s).

(** [qs.order_by("-evaluated_at", "-updated_at").first()]. *)
Definition ordered_before (a b : Evaluation) : bool :=
  (evaluated_at b <? evaluated_at a)
  || ((evaluated_at a =? evaluated_at b) && (updated_at b <? updated_at a)).

Fixpoint first_ordered (rows : list Evaluation) : option Evaluation :=
  match rows with
  | [] => None
  | e :: rest =>
      match first_ordered rest with
      | Some e' => if ordered_before e' e then Some e' else Some e
      | None => Some e
      end
  end.

(** Return the most recent evaluation for a player, or None. *)
Definition _latest_evaluation (player : Player) : option Evaluation :=
  match evaluations player with
  | None => None
  | Some (Raise _) => None
  | Some (Ok rows) => first_ordered rows
  end.

Definition doc_default : DocTemplate := mkDoc None.

Section Composer.

Context (env : Env) (lay : Layout).


(** *** Group report *)

(** Header with logo on the top-left. *)
Definition group_header_table (group : Group) (logo : option Image) : Flowable :=
  let title_para :=
    mkParagraph ("Group Report: " +:+ g_name group) (sample_style lay "Title") in
  let coach_para :=
    mkParagraph ("Coach: " +:+ g_coach group) (sample_style lay "Heading2") in
  FTable [ [image_cell logo; CPara title_para];
           [text_cell ""; CPara coach_para] ]
         [Some 70; None] 0 (HeaderStyle false).

Definition group_header (group : Group) : M Flowable :=
  logo ← _logo_image env 60 60;
  ret (group_header_table group logo).

(** The last cell of a row: the label of the latest evaluation's average. *)
Definition summary_average (p : Player) : string :=
  match _latest_evaluation p with
  | Some ev => rating_label_from_average (average_rating ev)
  | None => "-"
  end.

Definition summary_cells (p : Player) (img : option Image) : list Cell :=
  [ image_cell img; text_cell (p_name p);
    text_cell (default "" (p_phone p)); text_cell (summary_average p) ].

(** One pass of the loop over the players. *)
Definition summary_row (p : Player) : M (list Cell) :=
  img ← photo_image env (photo p) 50 50;
  ret (summary_cells p img).

Fixpoint summary_rows (ps : list Player) : M (list (list Cell)) :=
  match ps with
  | [] => ret []
  | p :: rest =>
      row ← summary_row p;
      rows ← summary_rows rest;
      ret (row :: rows)
  end.

Definition summary_header : list Cell :=
  [ text_cell "Photo"; text_cell "Player"; text_cell "Phone"; text_cell "Avg" ].

Definition group_story (group : Group) : M (list Flowable) :=
  header ← group_header group;
  rows ← summary_rows (players group);
  ret [ header; FSpacer 1 12;
        FTable (summary_header :: rows) [] 1 (GridStyle false) ].

Definition group_fallback_story (group : Group) : list Flowable :=
  [ FParagraph (mkParagraph "Group Report" (sample_style lay "Title"));
    FSpacer 1 12;
    FParagraph (mkParagraph ("Group: " +:+ g_name group) (sample_style lay "Normal")) ].

Definition build_group_report (group : Group) : M bytes :=
  story ← group_story group;
  let '(buffer, raised) := doc_build lay doc_default story in
  match raised with
  | None => ret buffer
  | Some e =>
      if is_OSError e then
        (* Fallback minimal PDF without images, in a buffer of its own *)
        let '(fallback_buffer, raised') :=
          doc_build lay doc_default (group_fallback_story group) in
        match raised' with
        | None => ret fallback_buffer
        | Some e' => raise e'
        end
      else raise e
  end.

(** *** Player report *)

Definition small_h2 : Style :=
  set_size (clone (sample_style lay "Heading2") "SmallH2") 11 13.
Definition small_h3 : Style :=
  set_size (clone (sample_style lay "Heading3") "SmallH3") 10 12.







Definition average_level_line (arabic_font : string) (ev : Evaluation) : M Paragraph :=
  title_html ← with_section_title_html env "Average Level" (fontName small_h3)
                 (Some arabic_font);
  avg ← rating_bilingual_html_from_average env (average_rating ev);
  ret (mkParagraph (title_html +:+ ": " +:+ avg) small_h3).







End Composer.

(** ** The specification's vocabulary *)

(** The label table as the specification gives it. *)
Definition spec_label (r : Z) : string :=
  match r with
  | 1 => "Bad"
  | 2 => "Not bad"
  | 3 => "Good"
  | 4 => "Very Good"
  | 5 => "Excellent"
  | _ => unknown_marker
  end.

Definition rating_labels : list string :=
  [ "Bad"; "Not bad"; "Good"; "Very Good"; "Excellent" ].

(** [clamp(x, lo, hi)]. *)
Definition clamp (x lo hi : Z) : Z :=
  if x <? lo then lo else if hi <? x then hi else x.

Definition is_finite (x : float) : bool :=
  match x with
  | S754_zero _ | S754_finite _ _ _ => true
  | S754_infinity _ | S754_nan => false
  end.

(** The three sources of a photo, in the order of the specification. *)
Inductive stage : Type := Storage | LocalFile | Http.

Definition stage_of (ev : event) : option stage :=
  match ev with
  | EvFieldOpen _ | EvFieldRead _ | EvFieldClose _ => Some Storage
  | EvExists _ | EvIsFile _ | EvImageFile _ => Some LocalFile
  | EvUrlOpen _ => Some Http
  | EvTTFont _ | EvRegisterFont _ _ => None
  end.

(** The stages a trace went through, in program order. *)
Definition trace_stages (t : list event) : list stage := omap stage_of t.

Section ResolverSpec.

Context (env : Env).

Definition decodes (data : bytes) : bool :=
  match image_reader_bytes env data with Ok _ => true | Raise _ => false end.

(** (1) the bytes read through the storage abstraction, when they decode:
    what the storage can deliver. *)
Definition from_storage (f : FieldFile) (width height : Z) : option Image :=
  match ff_open f, ff_read f, ff_close f with
  | Ok _, Ok data, Ok _ =>
      if decodes data then Some (mkImage (ImgData data) width height None) else None
  | _, _, _ => None
  end.

(** (2) the local file, when it exists, is a regular file and is accepted by
    ImageReader. *)
Definition from_file (path : string) (width height : Z) : option Image :=
  match fs_exists env path, fs_is_file env path, image_reader_file env path with
  | Ok true, Ok true, Ok _ => Some (mkImage (ImgFile path) width height None)
  | _, _, _ => None
  end.

Definition is_http (url : string) : bool :=
  String.prefix "http://" url || String.prefix "https://" url.

(** (3) the bytes fetched over HTTP(S), when they decode: what the network
    can deliver. *)
Definition from_url (url : string) (width height : Z) : option Image :=
  if truthy url && is_http url then
    match urlopen env url with
    | Ok data =>
        if decodes data then Some (mkImage (ImgData data) width height None) else None
    | Raise _ => None
    end
  else None.

(** The resolution of a photo as the specification words it: the storage,
    then the stored name under the media root, then, with a public base
    URL and a relative URL of the field, the network; the first source that
    delivers an image is taken, and the photo is absent when none does. *)
Definition photo_image_spec (f : FieldFile) (width height : Z) : option Image :=
  if field_set f then
    match from_storage f width height with
    | Some i => Some i
    | None =>
        match from_file (path_join (MEDIA_ROOT env) (ff_name f)) width height with
        | Some i => Some i
        | None =>
            match ff_url f with
            | Ok url =>
                if truthy (PUBLIC_BASE_URL env) && String.prefix "/" url
                then from_url (urljoin env (PUBLIC_BASE_URL env +:+ "/")
                                 (lstrip_char "/" url)) width height
                else None
            | Raise _ => None
            end
        end
    end
  else None.

(** A candidate font file that can be registered. *)
Definition usable_font (path : string) : bool :=
  match fs_exists env path, ttfont env path with
  | Ok true, Ok _ => true
  | _, _ => false
  end.

(** What [_safe_image] has seen of a file before it returns an image of it:
    the path existed, was a regular file, and ImageReader opened it. *)
Definition checked_file (path : string) : Prop :=
  fs_exists env path = Ok true
  ∧ fs_is_file env path = Ok true
  ∧ ∃ u, image_reader_file env path = Ok u.

End ResolverSpec.

(** An attribute that can be read with [getattr(obj, name, None)]: it has a
    value, or it is missing. *)
Definition readable {A} (attribute : result A) : Prop :=
  match attribute with
  | Ok _ => True
  | Raise e => e = AttributeError
  end.

(** A photo whose [path] and [url] can be read. *)
Definition photo_readable (f : FieldFile) : Prop :=
  readable (ff_path f) ∧ readable (ff_url f).

(** The world once "ArabicFont" is registered. *)
Definition with_arabic_font (w : World) : World :=
  mkWorld ({[ "ArabicFont" ]} ∪ registered_fonts w) (TTFSearchPath w).

(** The files a trace probed for existence, and the fonts it registered. *)
Definition probed (t : list event) : list string :=
  omap (λ ev, match ev with EvExists p => Some p | _ => None end) t.

Definition registrations (t : list event) : list string :=
  omap (λ ev, match ev with EvRegisterFont _ p => Some p | _ => None end) t.

(** The images a story embeds. *)
Definition cell_images (c : Cell) : list Image :=
  match c with CImage i => [i] | _ => [] end.

Definition flowable_images (f : Flowable) : list Image :=
  match f with
  | FTable data _ _ _ => concat (map (λ row, concat (map cell_images row)) data)
  | _ => []
  end.

Definition story_images (story : list Flowable) : list Image :=
  concat (map flowable_images story).


Definition is_table (f : Flowable) : bool :=
  match f with FTable _ _ _ _ => true | _ => false end.


(** The texts of the paragraphs a story is made of, in order. *)
Definition paragraph_texts (story : list Flowable) : list string :=
  omap (λ f, match f with FParagraph p => Some (para_text p) | _ => None end) story.

(** An image the layout engine can draw: a document that holds it alone is
    built without an exception. *)
Definition embeddable (lay : Layout) (img : Image) : Prop :=
  ∀ doc, (doc_build lay doc [FTable [[CImage img]] [] 0 (GridStyle false)]).2 = None.




(** A computation that returns, with a value that satisfies [P]. *)
Definition returns {A} (m : M A) (P : A → Prop) : Prop :=
  ∀ w, ∃ a w' t, m w = (Ok a, w', t) ∧ P a.

(** What holds of every value a computation returns, when it returns. *)
Definition yields {A} (m : M A) (P : A → Prop) : Prop :=
  ∀ w a w' t, m w = (Ok a, w', t) → P a.

(** Unfolds the monad's operations. *)
Ltac unfold_m :=
  unfold mbind, M_bind, bind, try_except, try_finally, io, lift, ret, raise,
    get_world, put_world, update_world in *.

(** Settles membership of a stage in an explicit list of stages. *)
Ltac solve_stages :=
  unfold not; rewrite ?elem_of_cons, ?elem_of_nil;
  intuition (try congruence; try lia).

(** The URLs a trace fetched, and the files it handed to ImageReader. *)
Definition url_events (t : list event) : list string :=
  omap (λ ev, match ev with EvUrlOpen u => Some u | _ => None end) t.

Definition decoded_files (t : list event) : list string :=
  omap (λ ev, match ev with EvImageFile p => Some p | _ => None end) t.

(** The first candidate file that is a readable image. *)
Fixpoint first_readable (env : Env) (candidates : list string) (width height : Z)
  : option Image :=
  match candidates with
  | [] => None
  | p :: rest =>
      match from_file env p width height with
      | Some i => Some i
      | None => first_readable env rest width height
      end
  end.

(** The logo a machine has: the first readable candidate file, aligned to
    the left. *)
Definition logo_image_spec (env : Env) (width height : Z) : option Image :=
  align_left <$> first_readable env (logo_candidates env) width height.

(** The local file of a photo: where its [path] attribute points, or, for
    a photo without a path, its stored name under the media root. *)
Definition probe_path (env : Env) (f : FieldFile) : string :=
  match ff_path f with
  | Ok path => if truthy path then path else path_join (MEDIA_ROOT env) (ff_name f)
  | Raise _ => path_join (MEDIA_ROOT env) (ff_name f)
  end.

(** The photo a story can show: the local file of a photo that is set. *)
Definition photo_found (env : Env) (f : FieldFile) (width height : Z) : option Image :=
  if field_set f then from_file env (probe_path env f) width height else None.

(** The story of a group, when it is assembled. *)
Definition group_story_of (env : Env) (lay : Layout) (group : Group) : list Flowable :=
  [ group_header_table lay group (logo_image_spec env 60 60);
    FSpacer 1 12;
    FTable (summary_header
            :: map (λ p, summary_cells p (photo_found env (photo p) 50 50))
                 (players group))
      [] 1 (GridStyle false) ].




(** The accesses of [_image_from_field] to a field. *)
Definition field_accesses (f : FieldFile) : list event :=
  match ff_open f with
  | Ok _ => [ EvFieldOpen (ff_name f); EvFieldRead (ff_name f); EvFieldClose (ff_name f) ]
  | Raise _ => [ EvFieldOpen (ff_name f) ]
  end.

(** The accesses of [_safe_image] to a path: each check is made only when
    the one before it answered True. *)
Definition file_accesses (env : Env) (path : string) : list event :=
  match fs_exists env path with
  | Ok true =>
      match fs_is_file env path with
      | Ok true => [ EvExists path; EvIsFile path; EvImageFile path ]
      | _ => [ EvExists path; EvIsFile path ]
      end
  | _ => [ EvExists path ]
  end.

(** The accesses of [_url_image] to a URL. *)
Definition url_accesses (url : string) : list event :=
  if truthy url && is_http url then [ EvUrlOpen url ] else [].

(** ** Concrete inputs *)

Module Sample.

Definition world : World := mkWorld ∅ ∅.

(** A machine with no image, no font, no network and no shaping library. *)
Definition bare : Env :=
  {| MEDIA_ROOT := "/srv/app/media";
     PUBLIC_BASE_URL := EmptyString;
     LOGO_URL := EmptyString;
     BASE_DIR := Some "/srv/app";
     module_dir := "/srv/app/core";
     fs_exists := λ _, Ok false;
     fs_is_file := λ _, Ok false;
     image_reader_file := λ _, Raise OSError;
     image_reader_bytes := λ _, Raise OSError;
     urlopen := λ _, Raise OSError;
     urljoin := λ a b, a +:+ b;
     ttfont := λ _, Raise OSError;
     shaper := None |}.

(** A machine on which every access raises. *)
Definition hostile : Env :=
  {| MEDIA_ROOT := "/srv/app/media";
     PUBLIC_BASE_URL := "https://academy.example";
     LOGO_URL := "https://academy.example/logo.png";
     BASE_DIR := Some "/srv/app";
     module_dir := "/srv/app/core";
     fs_exists := λ _, Raise OSError;
     fs_is_file := λ _, Raise OSError;
     image_reader_file := λ _, Raise OSError;
     image_reader_bytes := λ _, Raise ValueError;
     urlopen := λ _, Raise OSError;
     urljoin := λ a b, a +:+ b;
     ttfont := λ _, Raise RuntimeError;
     shaper := Some (λ _, Raise RuntimeError) |}.

Definition png : bytes := [Byte.x89; Byte.x50; Byte.x4e; Byte.x47].

(** A deployment with the bundled font, one photo on disk, and a media
    server that delivers every photo over HTTPS. *)
Definition deployed : Env :=
  {| MEDIA_ROOT := "/srv/app/media";
     PUBLIC_BASE_URL := "https://academy.example";
     LOGO_URL := "https://academy.example/logo.png";
     BASE_DIR := Some "/srv/app";
     module_dir := "/srv/app/core";
     fs_exists := λ p, Ok (String.eqb p "/srv/app/media/players/omar.png"
                           || String.eqb p "/srv/app/core/fonts/DejaVuSans.ttf");
     fs_is_file := λ p, Ok (String.eqb p "/srv/app/media/players/omar.png");
     image_reader_file := λ p,
       if String.eqb p "/srv/app/media/players/omar.png" then Ok tt else Raise OSError;
     image_reader_bytes := λ data,
       match data with Byte.x89 :: _ => Ok tt | _ => Raise OSError end;
     urlopen := λ u, if String.prefix "https://academy.example/" u then Ok png
                     else Raise OSError;
     urljoin := λ a b, a +:+ b;
     ttfont := λ _, Ok tt;
     shaper := Some (λ s, Ok ("[" +:+ s +:+ "]")) |}.

(** A photo on the local file storage whose file cannot be opened through
    the storage. *)
Definition unreadable (name : string) : FieldFile :=
  {| ff_name := name;
     ff_path := Ok ("/srv/app/media/" +:+ name); ff_url := Ok ("/media/" +:+ name);
     ff_open := Raise OSError; ff_read := Raise OSError; ff_close := Ok tt |}.

(** A photo on the local file storage that the storage delivers. *)
Definition stored (name : string) (data : bytes) : FieldFile :=
  {| ff_name := name;
     ff_path := Ok ("/srv/app/media/" +:+ name); ff_url := Ok ("/media/" +:+ name);
     ff_open := Ok tt; ff_read := Ok data; ff_close := Ok tt |}.

(** A photo on a remote storage: the bytes are delivered, there is no local
    path, and the URL is an absolute one. *)
Definition remote (name : string) (data : bytes) : FieldFile :=
  {| ff_name := name;
     ff_path := Raise NotImplementedError;
     ff_url := Ok ("https://cdn.example/" +:+ name);
     ff_open := Ok tt; ff_read := Ok data; ff_close := Ok tt |}.

(** An object with a name and bytes only, as a test double would be. *)
Definition detached (name : string) (data : bytes) : FieldFile :=
  {| ff_name := name;
     ff_path := Raise AttributeError; ff_url := Raise AttributeError;
     ff_open := Ok tt; ff_read := Ok data; ff_close := Ok tt |}.

Definition no_photo : FieldFile := unreadable EmptyString.

Definition style (name : string) : Style := mkStyle name "Helvetica" 10 12 0.

Definition pdf : bytes := [Byte.x25; Byte.x50; Byte.x44; Byte.x46].

(** An engine that lays every story out. *)
Definition working : Layout :=
  {| sample_style := style; doc_build := λ _ _, (pdf, None) |}.

(** The photo on the disk of the deployment is a truncated file: its header
    can be read, its pixel data cannot. *)
Definition truncated : string := "/srv/app/media/players/omar.png".

Definition embeds_truncated (story : list Flowable) : bool :=
  existsb (λ i, match img_src i with
                | ImgFile p => String.eqb p truncated
                | ImgData _ => false
                end) (story_images story).

(** What the printing engine writes: the header and the texts of the
    paragraphs. *)
Definition print (story : list Flowable) : bytes :=
  pdf ++ list_byte_of_string (String.concat "|" (paragraph_texts story)).

(** An engine that decodes an image when it draws it, raises OSError on the
    truncated file before anything is written, and prints every other
    story. *)
Definition printer : Layout :=
  {| sample_style := style;
     doc_build := λ _ story,
       if embeds_truncated story then ([], Some OSError) else (print story, None) |}.


Definition evaluation (avg : option float) : Evaluation :=
  {| evaluated_at := 20; updated_at := 21;
     ball_control := VInt 4; passing := VInt 3; dribbling := VInt 5;
     shooting := VInt 2; using_both_feet := VInt 1;
     speed := VInt 4; agility := VInt 4; endurance := VInt 3; strength := VInt 3;
     positioning := VInt 5; decision_making := VInt 4; game_awareness := VInt 4;
     teamwork := VInt 5;
     respect := VInt 5; sportsmanship := VInt 5; confidence := VInt 3;
     leadership := VNone;
     attendance_and_punctuality := VInt 5;
     average_rating := avg;
     ev_coach := "Hazem";
     notes := EmptyString |}.

Definition omar : Player :=
  {| p_name := "Omar"; p_group_name := "U12"; p_age := 11;
     p_phone := Some "0100"; photo := unreadable "players/omar.png";
     evaluations := Some (Ok [evaluation (Some (S754_finite false 15 (-2)))]) |}.

Definition ali : Player :=
  {| p_name := "Ali"; p_group_name := "U12"; p_age := 12;
     p_phone := None; photo := unreadable "players/ali.png";
     evaluations := Some (Ok []) |}.


(** A player whose photo is on a remote storage. *)
Definition sara : Player :=
  {| p_name := "Sara"; p_group_name := "U12"; p_age := 11;
     p_phone := None; photo := remote "players/sara.png" png;
     evaluations := Some (Ok []) |}.

Definition u12 : Group :=
  {| g_name := "U12"; g_coach := "Hazem"; players := [omar; ali] |}.

End Sample.

(** ** The settings module (academy/settings.py) *)

Module Settings.

(** What [urlparse] gives for a connection string.  [port] is a property:
    it raises ValueError when the port is not a number or is above
    65535. *)
Record ParseResult : Type := mkParseResult {
  path : string;
  username : option string;
  password : option string;
  hostname : option string;
  port : result (option Z)
}.

(** [os.getenv(name)] over the process environment. *)
Definition getenv (environ : gmap string string) (name : string) : option string :=
  environ !! name.

(** [os.getenv(name, default)]. *)
Definition getenv_or (environ : gmap string string) (name fallback : string) : string :=
  default fallback (environ !! name).

(** Truthiness of a value that is a string or None. *)
Definition is_set (o : option string) : bool :=
  match o with Some s => truthy s | None => false end.

(** [a or b]. *)
Definition or_else (a b : option string) : option string :=
  if is_set a then a else b.

Definition of_option (o : option string) : value :=
  match o with Some s => VStr s | None => VNone end.

Definition postgresql : string := "django.db.backends.postgresql".
Definition sqlite3 : string := "django.db.backends.sqlite3".

Definition db_url (environ : gmap string string) : option string :=
  or_else (getenv environ "DATABASE_URL")
    (or_else (getenv environ "POSTGRES_URL") (getenv environ "PG_URL")).

(** [parsed.port or 5432]. *)
Definition port_or_default (port : option Z) : Z :=
  match port with
  | Some n => if n =? 0 then 5432 else n
  | None => 5432
  end.

(** [DATABASES["default"]], or the exception that stops the import of the
    settings module.  [urlparse] itself raises ValueError on a bracketed
    host that is not closed. *)
Definition DATABASES (urlparse : string → result ParseResult) (BASE_DIR : string)
    (environ : gmap string string) : result (gmap string value) :=
  if is_set (db_url environ) then
    match urlparse (default EmptyString (db_url environ)) with
    | Raise e => Raise e
    | Ok parsed =>
        match port parsed with
        | Raise e => Raise e
        | Ok number =>
            match Py.str_of_int (port_or_default number) with
            | Raise e => Raise e
            | Ok port_text =>
                Ok (list_to_map
                      [ ("ENGINE", VStr postgresql);
                        ("NAME", VStr (lstrip_char "/"
                                         (if truthy (path parsed) then path parsed
                                          else "/")));
                        ("USER", of_option (username parsed));
                        ("PASSWORD", of_option (password parsed));
                        ("HOST", of_option (hostname parsed));
                        ("PORT", VStr port_text) ])
            end
        end
    end
  else if is_set (getenv environ "PGDATABASE") then
    Ok (list_to_map
          [ ("ENGINE", VStr postgresql);
            ("NAME", of_option (getenv environ "PGDATABASE"));
            ("USER", of_option (getenv environ "PGUSER"));
            ("PASSWORD", of_option (getenv environ "PGPASSWORD"));
            ("HOST", VStr (getenv_or environ "PGHOST" "localhost"));
            ("PORT", VStr (getenv_or environ "PGPORT" "5432")) ])
  else if is_set (getenv environ "DB_NAME") then
    Ok (list_to_map
          [ ("ENGINE", VStr postgresql);
            ("NAME", of_option (getenv environ "DB_NAME"));
            ("USER", of_option (getenv environ "DB_USER"));
            ("PASSWORD", of_option (getenv environ "DB_PASSWORD"));
            ("HOST", VStr (getenv_or environ "DB_HOST" "localhost"));
            ("PORT", VStr (getenv_or environ "DB_PORT" "5432")) ])
  else
    Ok (list_to_map
          [ ("ENGINE", VStr sqlite3);
            ("NAME", VStr (path_join BASE_DIR "db.sqlite3")) ]).

(** The variables that select a PostgreSQL database, in priority order. *)
Definition database_variables : list string :=
  [ "DATABASE_URL"; "POSTGRES_URL"; "PG_URL"; "PGDATABASE"; "DB_NAME" ].

(** *** String methods the settings use, on ASCII text

    [str.isspace] holds for the characters 9 to 13 and 28 to 32. *)
Definition isspace (c : ascii) : bool :=
  let n := nat_of_ascii c in
  ((9 <=? n) && (n <=? 13))%nat || ((28 <=? n) && (n <=? 32))%nat.

Fixpoint lstrip (s : string) : string :=
  match s with
  | String c s' => if isspace c then lstrip s' else s
  | EmptyString => EmptyString
  end.

Fixpoint rstrip (s : string) : string :=
  match s with
  | String c s' =>
      match rstrip s' with
      | EmptyString => if isspace c then EmptyString else String c EmptyString
      | r => String c r
      end
  | EmptyString => EmptyString
  end.

(** [s.strip()]. *)
Definition strip (s : string) : string := rstrip (lstrip s).

(** [s.split(sep)] for a one-character separator. *)
Fixpoint split (sep : ascii) (s : string) : list string :=
  match s with
  | EmptyString => [EmptyString]
  | String c s' =>
      if Ascii.eqb c sep then EmptyString :: split sep s'
      else match split sep s' with
           | piece :: pieces => String c piece :: pieces
           | [] => [String c EmptyString]
           end
  end.

Definition lower_char (c : ascii) : ascii :=
  let n := nat_of_ascii c in
  if ((65 <=? n) && (n <=? 90))%nat then ascii_of_nat (n + 32) else c.

(** [s.lower()]. *)
Fixpoint lower (s : string) : string :=
  match s with
  | String c s' => String (lower_char c) (lower s')
  | EmptyString => EmptyString
  end.

Fixpoint has_char (c : ascii) (s : string) : bool :=
  match s with
  | String a s' => Ascii.eqb a c || has_char c s'
  | EmptyString => false
  end.

Fixpoint last_char (s : string) : option ascii :=
  match s with
  | EmptyString => None
  | String c EmptyString => Some c
  | String _ s' => last_char s'
  end.

Definition first_char (s : string) : option ascii :=
  match s with String c _ => Some c | EmptyString => None end.

(** [DEBUG]. *)
Definition DEBUG (environ : gmap string string) : bool :=
  String.eqb (lower (getenv_or environ "DJANGO_DEBUG" "true")) "true".

(** [ALLOWED_HOSTS]. *)
Definition ALLOWED_HOSTS (environ : gmap string string) : list string :=
  split "," (getenv_or environ "DJANGO_ALLOWED_HOSTS" "*").

(** [[o.strip() for o in raw.split(",") if o.strip()]]. *)
Definition origins (raw : string) : list string :=
  omap (λ o, if truthy (strip o) then Some (strip o) else None) (split "," raw).

(** The CORS policy: every origin (CORS_ALLOW_ALL_ORIGINS), or the listed
    ones (CORS_ALLOWED_ORIGINS). *)
Inductive Cors : Type :=
| AllowAll
| Allowed (allowed : list string).

Definition CORS (environ : gmap string string) : Cors :=
  if DEBUG environ then AllowAll
  else
    let _cors_origins_env := strip (getenv_or environ "DJANGO_CORS_ALLOWED_ORIGINS" "") in
    if truthy _cors_origins_env then Allowed (origins _cors_origins_env)
    else Allowed ["https://football-academy-frontend.vercel.app"].

(** [CSRF_TRUSTED_ORIGINS], which is defined only when the variable is not
    blank. *)
Definition CSRF_TRUSTED_ORIGINS (environ : gmap string string) : option (list string) :=
  let _csrf_origins_env := strip (getenv_or environ "DJANGO_CSRF_TRUSTED_ORIGINS" "") in
  if truthy _csrf_origins_env then Some (origins _csrf_origins_env) else None.

(** An origin as the lists hold them: not empty, no blank at either end,
    no comma. *)
Definition clean_origin (o : string) : Prop :=
  truthy o = true
  ∧ (∀ c, first_char o = Some c → isspace c = false)
  ∧ (∀ c, last_char o = Some c → isspace c = false)
  ∧ has_char "," o = false.

End Settings.

(** * Properties *)

(** ** Strings *)

Lemma is_prefix_spec (t s : string) :
  is_prefix t s = true ↔ ∃ post, s = t +:+ post.
Proof.
  revert s. induction t as [|a t IH]; intros s; simpl.
  - split; [intros _; by exists s | done].
  - destruct s as [|b s]; simpl.
    + split; [done | intros [post H]; discriminate].
    + rewrite andb_true_iff, Ascii.eqb_eq, IH. split.
      * intros [-> [post ->]]. by exists post.
      * intros [post H]. injection H as -> ->. eauto.
Qed.

Lemma is_infix_spec (t s : string) : is_infix t s = true ↔ contains s t.
Proof.
  unfold contains. induction s as [|b s IH].
  - simpl. rewrite orb_false_r, is_prefix_spec. split.
    + intros [post H]. by exists EmptyString, post.
    + intros [pre [post H]]. destruct pre; [by exists post | discriminate].
  - cbn [is_infix]. rewrite orb_true_iff, is_prefix_spec, IH. split.
    + intros [[post H] | [pre [post H]]].
      * by exists EmptyString, post.
      * exists (String b pre), post. simpl. by rewrite H.
    + intros [pre [post H]]. destruct pre as [|c pre]; simpl in H.
      * left. by exists post.
      * right. injection H as -> ->. eauto.
Qed.

Lemma not_contains (t s : string) : is_infix t s = false → ¬ contains s t.
Proof. intros H C. apply is_infix_spec in C. congruence. Qed.

Lemma contains_here (pre t post : string) : contains (pre +:+ t +:+ post) t.
Proof. by exists pre, post. Qed.

Lemma app_cons (c : ascii) (a b : string) : String c a +:+ b = String c (a +:+ b).
Proof. reflexivity. Qed.

Lemma app_assoc_s (a b c : string) : (a +:+ b) +:+ c = a +:+ (b +:+ c).
Proof. induction a as [|x a IH]; [done|]. by rewrite !app_cons, IH. Qed.

Lemma app_empty_r (a : string) : a +:+ EmptyString = a.
Proof. induction a as [|x a IH]; [done|]. by rewrite app_cons, IH. Qed.

Lemma contains_app_l (a b t : string) : contains a t → contains (a +:+ b) t.
Proof.
  intros [pre [post ->]]. exists pre, (post +:+ b).
  by rewrite !app_assoc_s.
Qed.

Lemma contains_app_r (a b t : string) : contains b t → contains (a +:+ b) t.
Proof.
  intros [pre [post ->]]. exists (a +:+ pre), post.
  by rewrite !app_assoc_s.
Qed.

Lemma contains_refl (t : string) : contains t t.
Proof. exists EmptyString, EmptyString. simpl. by rewrite app_empty_r. Qed.

Lemma font_tag_contains (name text : string) : contains (font_tag name text) text.
Proof.
  unfold font_tag. do 5 apply contains_app_r. apply contains_app_l, contains_refl.
Qed.

(** ** The Python fragments *)

(** The decimal text of an integer is never the unknown marker: it starts
    with a sign or a digit. *)
Lemma decimal_not_marker (n : Z) : Py.decimal n ≠ unknown_marker.
Proof.
  unfold Py.decimal, NilZero.string_of_int, NilZero.string_of_uint, unknown_marker.
  destruct (Z.to_int n) as [d | d]; destruct d; simpl; discriminate.
Qed.

(** [str] converts an integer of at most 4300 digits, and no other. *)
Lemma str_of_int_short (n : Z) :
  Z.abs n < Py.str_limit → Py.str_of_int n = Ok (Py.decimal n).
Proof. intros H. unfold Py.str_of_int. by rewrite (proj2 (Z.ltb_lt _ _) H). Qed.

Lemma str_of_int_long (n : Z) :
  Py.str_limit ≤ Z.abs n → Py.str_of_int n = Raise ValueError.
Proof. intros H. unfold Py.str_of_int. by rewrite (proj2 (Z.ltb_ge _ _) H). Qed.

Lemma str_limit_large : 2 ^ 64 < Py.str_limit.
Proof. by vm_compute. Qed.

Lemma str_limit_digits : Py.str_limit = 10 ^ 4300.
Proof. reflexivity. Qed.

(** [round_half_even m k] is a nearest integer to [m / 2^k]. *)
Lemma round_half_even_nearest (m k : Z) :
  0 < k → 0 ≤ m →
  2 * Z.abs (Py.round_half_even m k * 2 ^ k - m) ≤ 2 ^ k.
Proof.
  intros Hk Hm. unfold Py.round_half_even.
  rewrite Z.shiftr_div_pow2, !Z.shiftl_mul_pow2 by lia.
  assert (HP : 2 ^ k = 2 * 2 ^ (k - 1)).
  { rewrite <- Z.pow_succ_r by lia. f_equal. lia. }
  assert (0 < 2 ^ (k - 1)) by (apply Z.pow_pos_nonneg; lia).
  pose proof (Z.div_mod m (2 ^ k) ltac:(lia)) as Hdm.
  pose proof (Z.mod_pos_bound m (2 ^ k) ltac:(lia)) as Hb.
  set (q := m / 2 ^ k) in *. set (r := m mod 2 ^ k) in *.
  replace (m - q * 2 ^ k) with r by lia. rewrite Z.mul_1_l.
  repeat case_match; lia.
Qed.

(** On a tie the even neighbour is taken. *)
Lemma round_half_even_tie (m k : Z) :
  0 < k → 0 ≤ m →
  2 * (m mod 2 ^ k) = 2 ^ k → Z.even (Py.round_half_even m k) = true.
Proof.
  intros Hk Hm Htie. unfold Py.round_half_even.
  rewrite Z.shiftr_div_pow2, !Z.shiftl_mul_pow2 by lia.
  assert (HP : 2 ^ k = 2 * 2 ^ (k - 1)).
  { rewrite <- Z.pow_succ_r by lia. f_equal. lia. }
  pose proof (Z.div_mod m (2 ^ k) ltac:(lia)) as Hdm.
  set (q := m / 2 ^ k) in *. set (r := m mod 2 ^ k) in *.
  replace (m - q * 2 ^ k) with r by lia. rewrite Z.mul_1_l.
  destruct (r <? 2 ^ (k - 1)) eqn:E1; [lia|].
  destruct (2 ^ (k - 1) <? r) eqn:E2; [lia|].
  destruct (Z.even q) eqn:E3; [done|].
  rewrite Z.even_add, E3. reflexivity.
Qed.

Lemma round_half_even_nonneg (m k : Z) :
  0 < k → 0 ≤ m → 0 ≤ Py.round_half_even m k.
Proof.
  intros Hk Hm. unfold Py.round_half_even.
  rewrite Z.shiftr_div_pow2 by lia.
  assert (0 ≤ m / 2 ^ k) by (apply Z.div_pos; [lia | apply Z.pow_pos_nonneg; lia]).
  repeat case_match; lia.
Qed.

(** [round(x)] is within one half of [x = ± m / 2^k]. *)
Lemma round_is_nearest (s : bool) (m : positive) (e n : Z) :
  e < 0 → Py.round (S754_finite s m e) = Ok n →
  2 * Z.abs (Z.abs n * 2 ^ (- e) - Z.pos m) ≤ 2 ^ (- e).
Proof.
  intros He Hn. unfold Py.round in Hn.
  destruct (0 <=? e) eqn:E; [lia|].
  pose proof (round_half_even_nonneg (Z.pos m) (- e) ltac:(lia) ltac:(lia)) as Hpos.
  pose proof (round_half_even_nearest (Z.pos m) (- e) ltac:(lia) ltac:(lia)) as Hnear.
  injection Hn as <-. set (mag := Py.round_half_even (Z.pos m) (- e)) in *.
  destruct s; rewrite ?Z.abs_opp, (Z.abs_eq mag) by lia; lia.
Qed.

(** [round] returns on every finite double. *)
Lemma round_finite (a : float) :
  is_finite a = true → ∃ n, Py.round a = Ok n.
Proof. destruct a; simpl; intros; try discriminate; eauto. Qed.

Lemma round_not_finite (a : float) :
  is_finite a = false → ∃ e, Py.round a = Raise e.
Proof. destruct a; simpl; intros; try discriminate; eauto. Qed.

(** [max(1, min(5, n))] is the clamp of the specification. *)
Lemma max_min_clamp (n : Z) : Z.max 1 (Z.min 5 n) = clamp n 1 5.
Proof. unfold clamp. repeat case_match; lia. Qed.

Lemma clamp_range (n : Z) : 1 ≤ clamp n 1 5 ≤ 5.
Proof. unfold clamp. repeat case_match; lia. Qed.

(** ** Rating labels *)

Lemma rating_labels_lookup (r : Z) :
  RATING_LABELS !! r = if bool_decide (1 ≤ r ≤ 5) then Some (spec_label r) else None.
Proof.
  unfold RATING_LABELS. cbn [list_to_map foldr uncurry fst snd].
  case_bool_decide as Hr.
  - assert (r = 1 ∨ r = 2 ∨ r = 3 ∨ r = 4 ∨ r = 5) as Hc by lia.
    destruct Hc as [-> | [-> | [-> | [-> | ->]]]]; reflexivity.
  - rewrite !lookup_insert_ne by lia. apply lookup_empty.
Qed.

Lemma rating_label_int (r : Z) :
  rating_label (VInt r) =
  if bool_decide (1 ≤ r ≤ 5) then spec_label r
  else if bool_decide (Z.abs r < Py.str_limit) then Py.decimal r
  else unknown_marker.
Proof.
  unfold rating_label. cbn [Py.int Py.str]. rewrite rating_labels_lookup.
  pose proof str_limit_large as Hlimit.
  assert (Hsmall : (2 ^ 64 = 18446744073709551616)%Z) by reflexivity.
  rewrite Hsmall in Hlimit. clear Hsmall.
  case_bool_decide as Hr.
  - rewrite str_of_int_short by lia. reflexivity.
  - case_bool_decide as Hd.
    + by rewrite str_of_int_short.
    + by rewrite str_of_int_long by lia.
Qed.

Lemma spec_label_in_range (r : Z) : 1 ≤ r ≤ 5 → spec_label r ∈ rating_labels.
Proof.
  intros Hr. assert (r = 1 ∨ r = 2 ∨ r = 3 ∨ r = 4 ∨ r = 5) as Hc by lia.
  unfold rating_labels.
  destruct Hc as [-> | [-> | [-> | [-> | ->]]]]; simpl; repeat constructor.
Qed.

Example rating_label_examples :
  rating_label (VInt 3) = "Good"
  ∧ rating_label (VInt 7) = "7"
  ∧ rating_label (VInt (-2)) = "-2"
  ∧ rating_label VNone = "—"
  ∧ rating_label (VStr "Good") = "—"
  ∧ rating_label (VStr " +4 ") = "Very Good".
Proof. by vm_compute. Qed.

(** 2.5 and 3.5 round to the even neighbour, -0.75 to -1. *)
Example round_examples :
  Py.round (S754_finite false 5 (-1)) = Ok 2
  ∧ Py.round (S754_finite false 7 (-1)) = Ok 4
  ∧ Py.round (S754_finite true 3 (-2)) = Ok (-1)
  ∧ Py.round S754_nan = Raise ValueError
  ∧ Py.round (S754_infinity false) = Raise OverflowError.
Proof. by vm_compute. Qed.

(** C2 (as amended): for every integer r in [1,5], rating_label(r) is the
    label the table fixes for r; for an integer r outside [1,5] of at most
    4300 decimal digits it is the decimal text of r, never the unknown
    marker; for an integer of more digits, whose conversion to text raises,
    and for None it is the unknown marker. *)
Theorem rating_label_of_integer (r : Z) :
  (1 ≤ r ≤ 5 → rating_label (VInt r) = spec_label r ∧ spec_label r ∈ rating_labels)
  ∧ (r < 1 ∨ 5 < r → Z.abs r < 10 ^ 4300 →
     Py.str_of_int r = Ok (Py.decimal r)
     ∧ rating_label (VInt r) = Py.decimal r
     ∧ rating_label (VInt r) ≠ unknown_marker)
  ∧ (10 ^ 4300 ≤ Z.abs r →
     Py.str_of_int r = Raise ValueError ∧ rating_label (VInt r) = unknown_marker)
  ∧ rating_label VNone = unknown_marker.
Proof.
  rewrite rating_label_int, <- str_limit_digits. split; [|split; [|split]].
  - intros Hr. rewrite bool_decide_true by done.
    split; [done | by apply spec_label_in_range].
  - intros Hr Hd. rewrite bool_decide_false, bool_decide_true by lia.
    split; [by apply str_of_int_short|]. split; [done | apply decimal_not_marker].
  - intros Hd. pose proof str_limit_large as Hlimit.
    assert (Hsmall : (2 ^ 64 = 18446744073709551616)%Z) by reflexivity.
    rewrite Hsmall in Hlimit. rewrite !bool_decide_false by lia.
    split; [by apply str_of_int_long | done].
  - reflexivity.
Qed.

Lemma rating_label_of_integer_witness :
  (rating_label (VInt 4) = spec_label 4 ∧ spec_label 4 ∈ rating_labels)
  ∧ (Py.str_of_int 9 = Ok (Py.decimal 9)
     ∧ rating_label (VInt 9) = Py.decimal 9 ∧ rating_label (VInt 9) ≠ unknown_marker)
  ∧ (Py.str_of_int (10 ^ 4300) = Raise ValueError
     ∧ rating_label (VInt (10 ^ 4300)) = unknown_marker).
Proof.
  split; [|split].
  - apply (proj1 (rating_label_of_integer 4)). lia.
  - apply (proj1 (proj2 (rating_label_of_integer 9))); [lia | by vm_compute].
  - apply (proj1 (proj2 (proj2 (rating_label_of_integer (10 ^ 4300))))). by vm_compute.
Defined.

(** C2, as stated, fails at r = 7: the value is outside [1,5] and the label
    is its decimal text, not the unknown marker. *)
Lemma rating_label_out_of_range :
  ¬ (1 ≤ 7 ≤ 5) ∧ rating_label (VInt 7) = "7" ∧ rating_label (VInt 7) ≠ unknown_marker.
Proof. split; [lia|]. split; [by vm_compute | by vm_compute]. Qed.

Lemma rating_label_from_average_not_finite (a : float) :
  is_finite a = false → rating_label_from_average (Some a) = unknown_marker.
Proof.
  intros H. destruct (round_not_finite a H) as [e He].
  unfold rating_label_from_average. by rewrite He.
Qed.

Lemma rating_label_from_average_rounded (a : float) (n : Z) :
  Py.round a = Ok n →
  rating_label_from_average (Some a) = rating_label (VInt (clamp n 1 5)).
Proof. intros Hn. unfold rating_label_from_average. by rewrite Hn, max_min_clamp. Qed.

(** C4: for every (finite) average a, round(a) is defined and
    rating_label_from_average(a) equals rating_label(clamp(round(a), 1, 5));
    for None the result is the unknown marker. *)
Theorem rating_label_from_average_clamp (a : float) :
  is_finite a = true →
  (∃ n, Py.round a = Ok n
        ∧ rating_label_from_average (Some a) = rating_label (VInt (clamp n 1 5)))
  ∧ rating_label_from_average None = unknown_marker.
Proof.
  intros Hfin. split; [|done].
  destruct (round_finite a Hfin) as [n Hn]. exists n. split; [done|].
  by apply rating_label_from_average_rounded.
Qed.

Lemma rating_label_from_average_clamp_witness :
  (∃ n, Py.round (S754_finite false 9 (-1)) = Ok n
        ∧ rating_label_from_average (Some (S754_finite false 9 (-1)))
          = rating_label (VInt (clamp n 1 5)))
  ∧ rating_label_from_average None = unknown_marker.
Proof. apply (rating_label_from_average_clamp (S754_finite false 9 (-1))). reflexivity. Defined.

(** The label of an average is one of the five labels or the marker. *)
Lemma rating_label_from_average_cases (avg : option float) :
  rating_label_from_average avg ∈ unknown_marker :: rating_labels.
Proof.
  destruct avg as [a|]; [|left].
  destruct (is_finite a) eqn:Hfin.
  - destruct (round_finite a Hfin) as [n Hn].
    rewrite (rating_label_from_average_rounded a n Hn).
    pose proof (clamp_range n) as Hr. rewrite rating_label_int, bool_decide_true by done.
    right. by apply spec_label_in_range.
  - rewrite rating_label_from_average_not_finite by done. left.
Qed.

(** None of these strings reads as an integer. *)
Lemma rating_label_of_label (s : string) :
  s ∈ unknown_marker :: rating_labels → rating_label (VStr s) = unknown_marker.
Proof.
  unfold rating_labels. intros H.
  repeat (apply elem_of_cons in H as [-> | H]);
    [by vm_compute .. | by apply elem_of_nil in H].
Qed.

Lemma marker_has_no_translation : translation RATING_TRANSLATIONS_AR unknown_marker = None.
Proof. by vm_compute. Qed.

Lemma marker_tag_has_no_label (l : string) :
  l ∈ rating_labels → ¬ contains (font_tag "Helvetica" unknown_marker) l.
Proof.
  unfold rating_labels. intros H.
  repeat (apply elem_of_cons in H as [-> | H]);
    try (apply not_contains; by vm_compute).
  by apply elem_of_nil in H.
Qed.

Lemma rating_bilingual_html_from_average_run (env : Env) (avg : option float) (w : World) :
  rating_bilingual_html_from_average env avg w
  = (Ok (font_tag "Helvetica" unknown_marker), w, []).
Proof.
  unfold rating_bilingual_html_from_average, rating_bilingual_html.
  rewrite rating_label_of_label by apply rating_label_from_average_cases.
  by rewrite marker_has_no_translation.
Qed.

(** ** Reasoning about computations *)

Lemma bind_ok {A B} (m : M A) (f : A → M B) (w w1 : World) (a : A) (t1 : list event) :
  m w = (Ok a, w1, t1) →
  (m ≫= f) w = let '(r, w2, t2) := f a w1 in (r, w2, t1 ++ t2).
Proof. intros H. unfold_m. by rewrite H. Qed.

Lemma bind_raise {A B} (m : M A) (f : A → M B) (w w1 : World) (e : exn) (t1 : list event) :
  m w = (Raise e, w1, t1) → (m ≫= f) w = (Raise e, w1, t1).
Proof. intros H. unfold_m. by rewrite H. Qed.

Lemma returns_ret {A} (a : A) (P : A → Prop) : P a → returns (ret a) P.
Proof. intros H w. by exists a, w, []. Qed.

Lemma returns_bind {A B} (m : M A) (f : A → M B) (P : A → Prop) (Q : B → Prop) :
  returns m P → (∀ a, P a → returns (f a) Q) → returns (m ≫= f) Q.
Proof.
  intros Hm Hf w. destruct (Hm w) as (a & w1 & t1 & Em & Pa).
  destruct (Hf a Pa w1) as (b & w2 & t2 & Ef & Qb).
  exists b, w2, (t1 ++ t2). split; [|done].
  rewrite (bind_ok _ _ _ _ _ _ Em). by rewrite Ef.
Qed.

Lemma returns_weaken {A} (m : M A) (P Q : A → Prop) :
  returns m P → (∀ a, P a → Q a) → returns m Q.
Proof.
  intros Hm HPQ w. destruct (Hm w) as (a & w1 & t1 & Em & Pa). eauto 10.
Qed.

(** A handler that returns makes the whole [try] return. *)
Lemma returns_try_except {A} (m : M A) (h : exn → M A) (P : A → Prop) :
  (∀ w a w' t, m w = (Ok a, w', t) → P a) →
  (∀ e, returns (h e) P) →
  returns (try_except m h) P.
Proof.
  intros Hm Hh w. unfold try_except.
  destruct (m w) as [[[a | e] w1] t1] eqn:Em.
  - exists a, w1, t1. eauto.
  - destruct (Hh e w1) as (b & w2 & t2 & Eh & Pb). rewrite Eh. eauto 10.
Qed.

Lemma try_except_ok {A} (m : M A) (h : exn → M A) (w w' : World) (a : A) (t : list event) :
  m w = (Ok a, w', t) → try_except m h w = (Ok a, w', t).
Proof. intros E. unfold try_except. by rewrite E. Qed.

Lemma yields_ret {A} (a : A) (P : A → Prop) : P a → yields (ret a) P.
Proof. intros H w b w' t [= <- _ _]. done. Qed.

Lemma yields_bind {A B} (m : M A) (f : A → M B) (P : A → Prop) (Q : B → Prop) :
  yields m P → (∀ a, P a → yields (f a) Q) → yields (m ≫= f) Q.
Proof.
  intros Hm Hf w b w' t. unfold_m.
  destruct (m w) as [[[a|e] w1] t1] eqn:Em; [|done].
  destruct (f a w1) as [[r w2] t2] eqn:Ef. intros [= -> <- <-].
  by apply (Hf a (Hm _ _ _ _ Em) w1 b w2 t2).
Qed.

Lemma yields_weaken {A} (m : M A) (P Q : A → Prop) :
  yields m P → (∀ a, P a → Q a) → yields m Q.
Proof. intros Hm HPQ w a w' t E. by apply HPQ, (Hm w a w' t). Qed.

Lemma returns_yields {A} (m : M A) (P : A → Prop) : returns m P → yields m P.
Proof.
  intros Hm w a w' t E. destruct (Hm w) as (b & w1 & t1 & E1 & Pb). congruence.
Qed.

(** ** Image resolvers *)

Lemma url_events_app (t1 t2 : list event) :
  url_events (t1 ++ t2) = url_events t1 ++ url_events t2.
Proof. apply omap_app. Qed.

Lemma trace_stages_app (t1 t2 : list event) :
  trace_stages (t1 ++ t2) = trace_stages t1 ++ trace_stages t2.
Proof. apply omap_app. Qed.

Section ResolverFacts.

Context (env : Env).

(** [_image_from_field] reads the field and answers None: when the bytes
    are there and ImageReader accepts them, the Image constructor refuses
    the ImageReader. *)
Lemma image_from_field_exact f wd ht w :
  _image_from_field env f wd ht w = (Ok None, w, field_accesses f).
Proof.
  unfold _image_from_field, field_accesses, new_Image. unfold_m.
  destruct (ff_open f), (ff_read f) as [data|], (ff_close f); simpl;
    try destruct (image_reader_bytes env data); reflexivity.
Qed.

(** [_safe_image] returns what the file stage yields, and only touches the
    file system. *)
Lemma safe_image_exact path wd ht w :
  _safe_image env path wd ht w = (Ok (from_file env path wd ht), w, file_accesses env path).
Proof.
  unfold _safe_image, from_file, file_accesses, new_Image. unfold_m.
  destruct (fs_exists env path) as [[]|]; simpl;
    destruct (fs_is_file env path) as [[]|]; simpl;
    try destruct (image_reader_file env path); reflexivity.
Qed.

(** [_url_image] fetches an http(s) URL and answers None, for the same
    reason as [_image_from_field]. *)
Lemma url_image_exact url wd ht w :
  _url_image env url wd ht w = (Ok None, w, url_accesses url).
Proof.
  unfold _url_image, url_accesses, is_http, new_Image. unfold_m.
  destruct (truthy url); simpl; [|done].
  destruct (String.prefix "http://" url || String.prefix "https://" url); simpl;
    [|done].
  destruct (urlopen env url) as [data|]; simpl; [|done].
  by destruct (image_reader_bytes env data).
Qed.

Lemma from_file_checked path wd ht img :
  from_file env path wd ht = Some img
  ↔ img = mkImage (ImgFile path) wd ht None ∧ checked_file env path.
Proof.
  unfold from_file, checked_file. split.
  - destruct (fs_exists env path) as [[]|]; try done.
    destruct (fs_is_file env path) as [[]|]; try done.
    destruct (image_reader_file env path) as [u|]; try done.
    intros [= <-]. eauto.
  - intros [-> (-> & -> & u & ->)]. done.
Qed.

Lemma field_accesses_stages f :
  ∃ n, trace_stages (field_accesses f) = replicate (S n) Storage.
Proof.
  unfold field_accesses. destruct (ff_open f); [by exists 2%nat | by exists 0%nat].
Qed.

Lemma file_accesses_stages path :
  ∃ n, trace_stages (file_accesses env path) = replicate (S n) LocalFile.
Proof.
  unfold file_accesses.
  destruct (fs_exists env path) as [[]|]; [|by exists 0%nat..].
  destruct (fs_is_file env path) as [[]|]; [by exists 2%nat | by exists 1%nat..].
Qed.

End ResolverFacts.

(** C6 (as amended): each image-resolution helper returns on every input,
    whatever the path, the storage field or the URL does (raising on every
    access included): the outcome is a value, None or an image, and the
    world is left as it was.  An image that _safe_image returns is the
    Image of the given path, and it is returned exactly when the path
    existed, was a regular file and was opened by ImageReader. *)
Theorem image_helpers_total (env : Env) (wd ht : Z) (w : World) :
  (∀ path, ∃ r t, _safe_image env path wd ht w = (Ok r, w, t)
                  ∧ ∀ img, r = Some img
                           ↔ img = mkImage (ImgFile path) wd ht None
                             ∧ checked_file env path)
  ∧ (∀ url, ∃ r t, _url_image env url wd ht w = (Ok r, w, t))
  ∧ (∀ field, ∃ r t, _image_from_field env field wd ht w = (Ok r, w, t)).
Proof.
  split; [|split].
  - intros path. exists (from_file env path wd ht), (file_accesses env path).
    split; [apply safe_image_exact|]. intros img. apply from_file_checked.
  - intros url. eexists _, _. apply url_image_exact.
  - intros f. eexists _, _. apply image_from_field_exact.
Qed.

(** C6, as stated, fails for the image of a truncated file: ImageReader
    opens it, so _safe_image returns its Image; an engine that decodes the
    file when it draws it cannot embed that image and raises OSError. *)
Lemma checked_image_may_not_embed :
  ∃ img,
    _safe_image Sample.deployed Sample.truncated 50 50 Sample.world
    = (Ok (Some img), Sample.world,
       [ EvExists Sample.truncated; EvIsFile Sample.truncated;
         EvImageFile Sample.truncated ])
    ∧ doc_build Sample.printer doc_default [FTable [[CImage img]] [] 0 (GridStyle false)]
      = ([], Some OSError)
    ∧ ¬ embeddable Sample.printer img.
Proof.
  exists (mkImage (ImgFile Sample.truncated) 50 50 None).
  split; [by vm_compute|]. split; [by vm_compute|].
  intros H. specialize (H doc_default). by vm_compute in H.
Qed.

(** On a machine where every access raises, the three helpers return None. *)
Example helpers_on_hostile_machine :
  (_safe_image Sample.hostile "/srv/app/media/players/omar.png" 50 50 Sample.world).1.1
    = Ok None
  ∧ (_url_image Sample.hostile "https://academy.example/media/players/omar.png" 50 50
       Sample.world).1.1 = Ok None
  ∧ (_image_from_field Sample.hostile (Sample.unreadable "players/omar.png") 50 50
       Sample.world).1.1 = Ok None.
Proof. by vm_compute. Qed.

(** ** The photo block *)

(** The whole run of the photo block. *)
Lemma photo_image_run (env : Env) (f : FieldFile) (wd ht : Z) (w : World) :
  photo_image env f wd ht w =
  if field_set f then
    match getattr_or_none (ff_path f) with
    | Raise e => (Raise e, w, field_accesses f)
    | Ok img_path =>
        let path := local_path env f img_path in
        match from_file env path wd ht with
        | Some i => (Ok (Some i), w, field_accesses f ++ file_accesses env path)
        | None =>
            match getattr_or_none (ff_url f) with
            | Raise e => (Raise e, w, field_accesses f ++ file_accesses env path)
            | Ok url =>
                (Ok None, w,
                 field_accesses f ++ file_accesses env path
                 ++ match media_url env url with
                    | Some u => url_accesses u
                    | None => []
                    end)
            end
        end
    end
  else (Ok None, w, []).
Proof.
  unfold photo_image. destruct (field_set f); [|done].
  unfold mbind, M_bind, bind, lift, ret.
  rewrite image_from_field_exact.
  destruct (getattr_or_none (ff_path f)) as [img_path|e]; [|by rewrite app_nil_r].
  cbn zeta. rewrite safe_image_exact.
  destruct (from_file env (local_path env f img_path) wd ht) as [i|];
    [by rewrite !app_nil_r|].
  destruct (getattr_or_none (ff_url f)) as [url|e]; [|by rewrite !app_nil_r].
  destruct (media_url env url) as [u|]; [by rewrite url_image_exact | done].
Qed.

(** C5, at two photos the sources can deliver.  The first is on a remote
    storage: the storage delivers its bytes and ImageReader accepts them,
    so the order of the specification gives the image of these bytes; the
    photo block reads them, gets None from _image_from_field, and raises the
    NotImplementedError of the [path] attribute.  The second is on the local
    storage, its file is missing on the disk and the media server delivers
    it: the storage and the network both deliver, and the photo block goes
    through all three stages and answers None. *)
Theorem photo_resolution_order :
  let sara := Sample.remote "players/sara.png" Sample.png in
  let ali := Sample.stored "players/ali.png" Sample.png in
  photo_image_spec Sample.deployed sara 50 50
  = Some (mkImage (ImgData Sample.png) 50 50 None)
  ∧ photo_image Sample.deployed sara 50 50 Sample.world
    = (Raise NotImplementedError, Sample.world,
       [ EvFieldOpen "players/sara.png"; EvFieldRead "players/sara.png";
         EvFieldClose "players/sara.png" ])
  ∧ photo_image_spec Sample.deployed ali 50 50
    = Some (mkImage (ImgData Sample.png) 50 50 None)
  ∧ from_url Sample.deployed "https://academy.example/media/players/ali.png" 50 50
    = Some (mkImage (ImgData Sample.png) 50 50 None)
  ∧ photo_image Sample.deployed ali 50 50 Sample.world
    = (Ok None, Sample.world,
       [ EvFieldOpen "players/ali.png"; EvFieldRead "players/ali.png";
         EvFieldClose "players/ali.png";
         EvExists "/srv/app/media/players/ali.png";
         EvUrlOpen "https://academy.example/media/players/ali.png" ]).
Proof. cbn zeta. split_and!; by vm_compute. Qed.
(** ** Font registration *)

Section FontFacts.

Context (env : Env).

(** The loop registers the first usable candidate, in list order, and
    nothing when there is none. *)
Lemma first_font_run (cands : list string) (w : World) :
  ∃ t,
    (first_font env cands w = (Ok "Helvetica", w, t)
     ∧ Forall (λ p, usable_font env p = false) cands
     ∧ registrations t = [] ∧ probed t = cands)
    ∨ (∃ pre p post,
         cands = pre ++ p :: post
         ∧ Forall (λ p, usable_font env p = false) pre
         ∧ usable_font env p = true
         ∧ first_font env cands w = (Ok "ArabicFont", with_arabic_font w, t)
         ∧ registrations t = [p] ∧ probed t = pre ++ [p]).
Proof.
  induction cands as [|path rest IH].
  { exists []. left. by repeat split. }
  destruct IH as [t IH].
  cbn [first_font]. unfold registerFont, usable_font in *. unfold_m.
  destruct (fs_exists env path) as [[]|] eqn:E1; cbn [negb].
  - destruct (ttfont env path) eqn:E2.
    + eexists. right. exists [], path, rest. simpl. rewrite E1, E2.
      by repeat split.
    + destruct IH as [(E & Hall & Hreg & Hpr) | (pre & p & post & -> & Hall & Hp & E & Hreg & Hpr)];
        rewrite E; eexists.
      * left. split; [reflexivity|]. split; [|by simpl; rewrite ?Hreg, ?Hpr].
        constructor; [by rewrite E1, E2 | done].
      * right. exists (path :: pre), p, post. split; [done|].
        split; [constructor; [by rewrite E1, E2 | done]|].
        split; [done|]. split; [reflexivity|]. by simpl; rewrite ?Hreg, ?Hpr.
  - destruct IH as [(E & Hall & Hreg & Hpr) | (pre & p & post & -> & Hall & Hp & E & Hreg & Hpr)];
      rewrite E; eexists.
    + left. split; [reflexivity|]. split; [|by simpl; rewrite ?Hreg, ?Hpr].
      constructor; [by rewrite E1 | done].
    + right. exists (path :: pre), p, post. split; [done|].
      split; [constructor; [by rewrite E1 | done]|].
      split; [done|]. split; [reflexivity|]. by simpl; rewrite ?Hreg, ?Hpr.
  - destruct IH as [(E & Hall & Hreg & Hpr) | (pre & p & post & -> & Hall & Hp & E & Hreg & Hpr)];
      rewrite E; eexists.
    + left. split; [reflexivity|]. split; [|by simpl; rewrite ?Hreg, ?Hpr].
      constructor; [by rewrite E1 | done].
    + right. exists (path :: pre), p, post. split; [done|].
      split; [constructor; [by rewrite E1 | done]|].
      split; [done|]. split; [reflexivity|]. by simpl; rewrite ?Hreg, ?Hpr.
Qed.

Lemma register_when_registered (w : World) :
  "ArabicFont" ∈ registered_fonts w →
  _register_arabic_font env w = (Ok "ArabicFont", w, []).
Proof.
  intros H. unfold _register_arabic_font. unfold_m.
  by rewrite bool_decide_true.
Qed.

Lemma register_when_fresh (w : World) :
  "ArabicFont" ∉ registered_fonts w →
  _register_arabic_font env w
  = first_font env (font_candidates env)
      (mkWorld (registered_fonts w)
         (TTFSearchPath w ∪ {[ path_join (module_dir env) "fonts" ]})).
Proof.
  intros H. unfold _register_arabic_font. unfold_m.
  rewrite bool_decide_false by done.
  by destruct (first_font _ _ _) as [[r w2] t2].
Qed.

(** [_register_arabic_font] always returns one of its two names. *)
Lemma register_arabic_font_returns :
  returns (_register_arabic_font env) (λ name, name = "ArabicFont" ∨ name = "Helvetica").
Proof.
  intros w. destruct (decide ("ArabicFont" ∈ registered_fonts w)) as [Hin | Hout].
  - rewrite register_when_registered by done. eauto 10.
  - rewrite register_when_fresh by done.
    destruct (first_font_run (font_candidates env)
                (mkWorld (registered_fonts w)
                   (TTFSearchPath w ∪ {[ path_join (module_dir env) "fonts" ]})))
      as [t [(E & _) | (pre & p & post & _ & _ & _ & E & _)]];
      rewrite E; eauto 10.
Qed.

End FontFacts.

(** C10: on a fixed file system a second call of _register_arabic_font
    returns the name the first call returned, registers nothing and leaves
    the registry as the first call left it; each call probes the candidate
    paths in their fixed order (bundled fonts, then the system font
    directories); the name is "Helvetica" exactly when the font was not
    registered before and no candidate is usable, "ArabicFont" otherwise. *)
Theorem register_arabic_font_idempotent (env : Env) (w : World) :
  ∃ name w1 t1 t2,
    _register_arabic_font env w = (Ok name, w1, t1)
    ∧ _register_arabic_font env w1 = (Ok name, w1, t2)
    ∧ registrations t2 = []
    ∧ probed t1 `prefix_of` font_candidates env
    ∧ probed t2 `prefix_of` font_candidates env
    ∧ font_candidates env
      = local_fonts env ++ windows_candidates ++ linux_candidates ++ mac_candidates
    ∧ (name = "ArabicFont" ∨ name = "Helvetica")
    ∧ (name = "Helvetica"
       ↔ ("ArabicFont" ∉ registered_fonts w)
         ∧ Forall (λ p, usable_font env p = false) (font_candidates env)).
Proof.
  destruct (decide ("ArabicFont" ∈ registered_fonts w)) as [Hin | Hout].
  { exists "ArabicFont", w, [], [].
    rewrite register_when_registered by done.
    repeat split; try done; try apply prefix_nil; eauto.
    all: try (intros; discriminate). by intros [? _]. }
  rewrite register_when_fresh by done.
  set (w0 := mkWorld (registered_fonts w)
               (TTFSearchPath w ∪ {[ path_join (module_dir env) "fonts" ]})).
  destruct (first_font_run env (font_candidates env) w0)
    as [t1 [(E & Hall & Hreg & Hpr) | (pre & p & post & Hc & Hall & Hp & E & Hreg & Hpr)]];
    rewrite E.
  - (* no candidate: the second call probes again and finds the same *)
    assert (Hout0 : "ArabicFont" ∉ registered_fonts w0) by done.
    assert (Hw0 : mkWorld (registered_fonts w0)
                    (TTFSearchPath w0 ∪ {[ path_join (module_dir env) "fonts" ]}) = w0).
    { unfold w0. simpl. f_equal. by rewrite <- (assoc_L (∪)), (idemp_L (∪)). }
    exists "Helvetica", w0, t1, t1.
    rewrite (register_when_fresh env w0 Hout0), Hw0, E.
    repeat split; try done; try (rewrite Hpr; done); eauto.
  - (* a candidate was registered: the second call reuses it *)
    assert (Hin1 : "ArabicFont" ∈ registered_fonts (with_arabic_font w0)).
    { simpl. apply elem_of_union_l, elem_of_singleton. reflexivity. }
    exists "ArabicFont", (with_arabic_font w0), t1, [].
    rewrite (register_when_registered env _ Hin1).
    repeat split; try done; try apply prefix_nil; eauto.
    + rewrite Hpr, Hc. exists post. by rewrite <- app_assoc.
    + intros [_ Hnone]. rewrite Hc in Hnone.
      apply Forall_app in Hnone as [_ Hnone]. inversion Hnone; congruence.
Qed.

(** On the sample deployment the bundled DejaVu font is registered by the
    first call and reused by the second; on the bare machine both calls
    probe all seventeen candidates and answer "Helvetica". *)
Example fonts_on_samples :
  (let '(r1, w1, t1) := _register_arabic_font Sample.deployed Sample.world in
   let '(r2, w2, t2) := _register_arabic_font Sample.deployed w1 in
   r1 = Ok "ArabicFont" ∧ r2 = Ok "ArabicFont" ∧ t2 = []
   ∧ registrations t1 = ["/srv/app/core/fonts/DejaVuSans.ttf"]
   ∧ probed t1 = [ "/srv/app/core/fonts/NotoNaskhArabic-Regular.ttf";
                   "/srv/app/core/fonts/DejaVuSans.ttf" ])
  ∧ (let '(r1, w1, t1) := _register_arabic_font Sample.bare Sample.world in
     let '(r2, w2, t2) := _register_arabic_font Sample.bare w1 in
     r1 = Ok "Helvetica" ∧ r2 = Ok "Helvetica"
     ∧ probed t1 = font_candidates Sample.bare ∧ probed t2 = font_candidates Sample.bare
     ∧ length (font_candidates Sample.bare) = 17%nat).
Proof. by vm_compute. Qed.

(** ** Bilingual labels *)

Lemma skill_translation_found (label tr : string) :
  SKILL_TRANSLATIONS_AR !! label = Some tr →
  translation SKILL_TRANSLATIONS_AR label = Some tr.
Proof.
  intros H. unfold translation. rewrite H.
  apply elem_of_list_to_map_2 in H.
  repeat (apply elem_of_cons in H as [[= -> ->] | H]); try reflexivity.
  by apply elem_of_nil in H.
Qed.

Lemma skill_translation_missing (label : string) :
  SKILL_TRANSLATIONS_AR !! label = None →
  translation SKILL_TRANSLATIONS_AR label = None.
Proof. intros H. unfold translation. by rewrite H. Qed.

Lemma arabic_font_or_register_returns (env : Env) (af : option string) :
  returns (arabic_font_or_register env af) (λ _, True).
Proof.
  unfold arabic_font_or_register.
  destruct af as [name|]; [destruct (truthy name)|];
    try (by apply returns_ret);
    apply (returns_weaken _ _ _ (register_arabic_font_returns env)); done.
Qed.

Lemma with_translation_html_returns (env : Env) (label ef : string) (af : option string) :
  returns (with_translation_html env label ef af)
    (λ out, match translation SKILL_TRANSLATIONS_AR label with
            | Some tr => ∃ font, out = font_tag ef label +:+ " - "
                                       +:+ font_tag font (_shape_arabic env tr)
            | None => out = font_tag ef label
            end).
Proof.
  unfold with_translation_html.
  apply (returns_bind _ _ _ _ (arabic_font_or_register_returns env af)).
  intros font _. destruct (translation SKILL_TRANSLATIONS_AR label) as [tr|];
    apply returns_ret; eauto.
Qed.

Lemma with_section_title_html_returns (env : Env) (title ef : string) (af : option string) :
  returns (with_section_title_html env title ef af) (λ _, True).
Proof.
  unfold with_section_title_html.
  apply (returns_bind _ _ _ _ (arabic_font_or_register_returns env af)).
  intros font _. destruct (translation SECTION_TRANSLATIONS_AR title);
    by apply returns_ret.
Qed.

(** C7 (as amended): for a label of the translation table, the text
    renderer and the HTML renderer give an output that contains the English
    label and the shaped translation, and with_translation one that contains
    the label and the translation as the table has it; for a label that is
    not in the table, the two text renderers return the label alone and the
    HTML renderer returns the label alone inside its font tag. *)
Theorem bilingual_label_rendering (env : Env) (label : string) :
  (∀ tr, SKILL_TRANSLATIONS_AR !! label = Some tr →
     contains (with_translation_text env label) label
     ∧ contains (with_translation_text env label) (_shape_arabic env tr)
     ∧ (∀ ef af, returns (with_translation_html env label ef af)
                   (λ out, contains out label ∧ contains out (_shape_arabic env tr)))
     ∧ contains (with_translation label) label
     ∧ contains (with_translation label) tr)
  ∧ (SKILL_TRANSLATIONS_AR !! label = None →
     with_translation_text env label = label
     ∧ (∀ ef af, returns (with_translation_html env label ef af)
                   (λ out, out = font_tag ef label))
     ∧ with_translation label = label).
Proof.
  split.
  - intros tr Htr. apply skill_translation_found in Htr.
    unfold with_translation_text, with_translation. rewrite Htr.
    repeat split.
    + apply (contains_here EmptyString).
    + do 2 apply contains_app_r. apply contains_app_l, contains_refl.
    + intros ef af.
      apply (returns_weaken _ _ _ (with_translation_html_returns env label ef af)).
      rewrite Htr. intros out [font ->]. split.
      * apply contains_app_l, font_tag_contains.
      * do 2 apply contains_app_r. apply font_tag_contains.
    + apply (contains_here EmptyString).
    + do 2 apply contains_app_r. apply contains_app_l, contains_refl.
  - intros Hnone. apply skill_translation_missing in Hnone.
    unfold with_translation_text, with_translation. rewrite Hnone.
    repeat split.
    intros ef af.
    apply (returns_weaken _ _ _ (with_translation_html_returns env label ef af)).
    by rewrite Hnone.
Qed.

Lemma bilingual_label_rendering_witness :
  (contains (with_translation_text Sample.deployed "Speed") "Speed"
   ∧ contains (with_translation_text Sample.deployed "Speed")
       (_shape_arabic Sample.deployed "السرعة"))
  ∧ with_translation_text Sample.deployed "Height" = "Height".
Proof.
  split.
  - pose proof (proj1 (bilingual_label_rendering Sample.deployed "Speed") "السرعة") as H.
    destruct H as (H1 & H2 & _); [by vm_compute | by split].
  - apply (proj2 (bilingual_label_rendering Sample.deployed "Height")). by vm_compute.
Defined.

(** C7, as stated, fails for the HTML renderer at a label that is not in the
    table: the output is the label inside a font tag, which is not the label
    alone; and with_translation appends the translation unshaped. *)
Lemma html_label_is_tagged :
  SKILL_TRANSLATIONS_AR !! "Height" = None
  ∧ (with_translation_html Sample.bare "Height" "Helvetica" (Some "Helvetica")
       Sample.world).1.1 = Ok (font_tag "Helvetica" "Height")
  ∧ font_tag "Helvetica" "Height" ≠ "Height"
  ∧ SKILL_TRANSLATIONS_AR !! "Speed" = Some "السرعة"
  ∧ ¬ contains (with_translation "Speed") (_shape_arabic Sample.deployed "السرعة").
Proof.
  split; [by vm_compute|]. split; [by vm_compute|]. split; [by vm_compute|].
  split; [by vm_compute|]. apply not_contains. by vm_compute.
Qed.

(** ** The Average Level line *)

(** C3: whatever the average, rating_bilingual_html_from_average renders the
    unknown marker alone: the label it gets from rating_label_from_average is
    a string that rating_label cannot read as an integer.  The markup it
    returns holds none of the five labels, and the Average Level line of the
    player report ends with it. *)
Theorem average_level_shows_marker (env : Env) (lay : Layout) (avg : option float) :
  (∀ w, rating_bilingual_html_from_average env avg w
        = (Ok (font_tag "Helvetica" unknown_marker), w, []))
  ∧ rating_label (VStr (rating_label_from_average avg)) = unknown_marker
  ∧ (∀ l, l ∈ rating_labels → ¬ contains (font_tag "Helvetica" unknown_marker) l)
  ∧ (∀ font ev,
       returns (average_level_line env lay font ev)
         (λ line, ∃ title,
            line = mkParagraph (title +:+ ": " +:+ font_tag "Helvetica" unknown_marker)
                     (small_h3 lay))).
Proof.
  split; [intros w; apply rating_bilingual_html_from_average_run|].
  split; [apply rating_label_of_label, rating_label_from_average_cases|].
  split; [apply marker_tag_has_no_label|].
  intros font ev. unfold average_level_line.
  eapply returns_bind; [apply with_section_title_html_returns|].
  intros title _.
  apply (returns_bind _ _ (λ out, out = font_tag "Helvetica" unknown_marker)).
  - intros w. rewrite rating_bilingual_html_from_average_run.
    by exists (font_tag "Helvetica" unknown_marker), w, [].
  - intros out ->. apply returns_ret. by exists title.
Qed.

(** An average of 3.75 is labelled "Very Good" in the group table and shown
    as the marker on the player's Average Level line. *)
Example average_of_3_75 :
  rating_label_from_average (Some (S754_finite false 15 (-2))) = "Very Good"
  ∧ (rating_bilingual_html_from_average Sample.deployed
       (Some (S754_finite false 15 (-2))) Sample.world).1.1
    = Ok (font_tag "Helvetica" "—")
  ∧ (rating_bilingual_html Sample.deployed (VInt 4) Sample.world).1.1
    = Ok (font_tag "Helvetica" "Very Good" +:+ " / " +:+ font_tag "ArabicFont" "[جيد جدًا]").
Proof. by vm_compute. Qed.

(** ** The stories *)

Section ComposerFacts.

Context (env : Env) (lay : Layout).

Lemma local_path_probe (f : FieldFile) (img_path : option string) :
  getattr_or_none (ff_path f) = Ok img_path → local_path env f img_path = probe_path env f.
Proof.
  unfold getattr_or_none, local_path, probe_path.
  destruct (ff_path f) as [path|e]; [by intros [= <-]|].
  destruct e; intros [= <-]; done.
Qed.

(** When the photo block returns, it returns the local file of the photo. *)
Lemma photo_image_yields (f : FieldFile) (wd ht : Z) :
  yields (photo_image env f wd ht) (λ r, r = photo_found env f wd ht).
Proof.
  intros w r w' t. rewrite photo_image_run. unfold photo_found.
  destruct (field_set f); [|by intros [= <- _ _]].
  destruct (getattr_or_none (ff_path f)) as [img_path|e] eqn:Ep; [|done].
  cbn zeta. rewrite (local_path_probe f img_path Ep).
  destruct (from_file env (probe_path env f) wd ht) as [i|]; [by intros [= <- _ _]|].
  destruct (getattr_or_none (ff_url f)) as [url|e]; [|done]. by intros [= <- _ _].
Qed.

Lemma readable_getattr {A} (attribute : result A) :
  readable attribute → ∃ v, getattr_or_none attribute = Ok v.
Proof.
  unfold readable, getattr_or_none. destruct attribute as [a|e]; [eauto|].
  intros ->. eauto.
Qed.

(** It returns whenever the two attributes can be read. *)
Lemma photo_image_returns (f : FieldFile) (wd ht : Z) :
  photo_readable f →
  returns (photo_image env f wd ht) (λ r, r = photo_found env f wd ht).
Proof.
  intros [Hp Hu] w.
  destruct (readable_getattr _ Hp) as [img_path Ep].
  destruct (readable_getattr _ Hu) as [url Eu].
  pose proof (photo_image_yields f wd ht w) as Hy.
  rewrite photo_image_run in *. rewrite Ep, Eu in *. cbn zeta in *.
  destruct (field_set f); [|by eauto 10].
  destruct (from_file env (local_path env f img_path) wd ht) as [i|]; eauto 10.
Qed.

(** The photo block leaves the registry alone. *)
Lemma photo_image_world (f : FieldFile) (wd ht : Z) (w : World) :
  (photo_image env f wd ht w).1.2 = w.
Proof. rewrite photo_image_run. cbn zeta. by repeat case_match. Qed.

Lemma first_logo_exact (cands : list string) (wd ht : Z) (w : World) :
  ∃ t, first_logo env cands wd ht w
       = (Ok (align_left <$> first_readable env cands wd ht), w, t)
       ∧ url_events t = [] ∧ Forall (λ ev, stage_of ev = Some LocalFile) t.
Proof.
  induction cands as [|p rest IH]; cbn [first_logo first_readable].
  { exists []. by repeat split. }
  rewrite (bind_ok _ _ _ _ _ _ (safe_image_exact env p wd ht w)).
  assert (H1 : url_events (file_accesses env p) = []
               ∧ Forall (λ ev, stage_of ev = Some LocalFile) (file_accesses env p)).
  { unfold file_accesses. repeat case_match; split; try done; repeat constructor. }
  destruct H1 as [H1 H1'].
  destruct (from_file env p wd ht) as [i|].
  - eexists. split; [reflexivity|]. rewrite app_nil_r. by split.
  - destruct IH as (t2 & E2 & H2 & H2'). rewrite E2. eexists. split; [reflexivity|].
    rewrite url_events_app, H1, H2. split; [done|]. by apply Forall_app.
Qed.

(** [_logo_image] never raises: it returns the first readable candidate
    file, and fetches LOGO_URL, to no avail, when there is none. *)
Lemma logo_image_exact (wd ht : Z) (w : World) :
  ∃ t, _logo_image env wd ht w = (Ok (logo_image_spec env wd ht), w, t)
       ∧ url_events t
         = match first_readable env (logo_candidates env) wd ht with
           | Some _ => []
           | None => if truthy (LOGO_URL env) && is_http (LOGO_URL env)
                     then [LOGO_URL env] else []
           end.
Proof.
  unfold _logo_image, logo_image_spec.
  destruct (first_logo_exact (logo_candidates env) wd ht w) as (t1 & E1 & H1 & _).
  rewrite (bind_ok _ _ _ _ _ _ (try_except_ok _ _ _ _ _ _ E1)).
  destruct (first_readable env (logo_candidates env) wd ht) as [i|]; simpl.
  { eexists. split; [reflexivity|]. by rewrite app_nil_r. }
  assert (E3 : (_url_image env (LOGO_URL env) wd ht ≫=
                  λ img, match img with
                         | Some i => ret (Some (align_left i))
                         | None => ret None
                         end) w
               = (Ok None, w, url_accesses (LOGO_URL env) ++ [])).
  { by rewrite (bind_ok _ _ _ _ _ _ (url_image_exact env (LOGO_URL env) wd ht w)). }
  rewrite (try_except_ok _ _ _ _ _ _ E3). eexists. split; [reflexivity|].
  rewrite !url_events_app, H1, app_nil_r. unfold url_accesses.
  by destruct (truthy (LOGO_URL env) && is_http (LOGO_URL env)).
Qed.

Lemma logo_image_returns (wd ht : Z) :
  returns (_logo_image env wd ht) (λ r, r = logo_image_spec env wd ht).
Proof. intros w. destruct (logo_image_exact wd ht w) as (t & E & _). eauto 10. Qed.

Lemma group_header_returns (group : Group) :
  returns (group_header env lay group)
    (λ header, header = group_header_table lay group (logo_image_spec env 60 60)).
Proof.
  unfold group_header. eapply returns_bind; [apply logo_image_returns|].
  intros logo ->. by apply returns_ret.
Qed.

(** The loop adds one row per player, in the order of the players. *)
Lemma summary_rows_yields (ps : list Player) :
  yields (summary_rows env ps)
    (λ rows, rows = map (λ p, summary_cells p (photo_found env (photo p) 50 50)) ps).
Proof.
  induction ps as [|p rest IH]; cbn [summary_rows]; [by apply yields_ret|].
  apply (yields_bind _ _ (λ row, row = summary_cells p (photo_found env (photo p) 50 50))).
  - unfold summary_row. eapply yields_bind; [apply photo_image_yields|].
    intros img ->. by apply yields_ret.
  - intros row ->. eapply yields_bind; [apply IH|]. intros rows ->. by apply yields_ret.
Qed.

Lemma summary_rows_returns (ps : list Player) :
  Forall (λ p, photo_readable (photo p)) ps →
  returns (summary_rows env ps)
    (λ rows, rows = map (λ p, summary_cells p (photo_found env (photo p) 50 50)) ps).
Proof.
  induction 1 as [|p rest Hp Hrest IH]; cbn [summary_rows]; [by apply returns_ret|].
  apply (returns_bind _ _ (λ row, row = summary_cells p (photo_found env (photo p) 50 50))).
  - unfold summary_row. eapply returns_bind; [by apply photo_image_returns|].
    intros img ->. by apply returns_ret.
  - intros row ->. eapply returns_bind; [apply IH|]. intros rows ->. by apply returns_ret.
Qed.

Lemma group_story_yields (group : Group) :
  yields (group_story env lay group) (λ story, story = group_story_of env lay group).
Proof.
  unfold group_story.
  eapply yields_bind; [apply returns_yields, group_header_returns|]. intros header ->.
  eapply yields_bind; [apply summary_rows_yields|]. intros rows ->. by apply yields_ret.
Qed.

Lemma group_story_returns (group : Group) :
  Forall (λ p, photo_readable (photo p)) (players group) →
  returns (group_story env lay group) (λ story, story = group_story_of env lay group).
Proof.
  intros Hps. unfold group_story.
  eapply returns_bind; [apply group_header_returns|]. intros header ->.
  eapply returns_bind; [by apply summary_rows_returns|]. intros rows ->.
  by apply returns_ret.
Qed.

(** The exception of a photo block stops the story of the group. *)
Lemma summary_rows_raise (pre : list Player) (p : Player) (post : list Player)
    (w : World) (e : exn) :
  Forall (λ p, photo_readable (photo p)) pre →
  (photo_image env (photo p) 50 50 w).1.1 = Raise e →
  (summary_rows env (pre ++ p :: post) w).1.1 = Raise e.
Proof.
  intros Hpre. revert w. induction Hpre as [|q rest Hq Hrest IH]; intros w He.
  - cbn [app summary_rows]. unfold summary_row. unfold_m.
    destruct (photo_image env (photo p) 50 50 w) as [[r w1] t1]. simpl in He. by subst r.
  - cbn [app summary_rows].
    destruct (photo_image_returns (photo q) 50 50 Hq w) as (img & w1 & t1 & E1 & _).
    assert (Hw : w1 = w).
    { pose proof (photo_image_world (photo q) 50 50 w) as Hw. by rewrite E1 in Hw. }
    subst w1. specialize (IH w He).
    unfold summary_row. unfold_m. rewrite E1.
    destruct (summary_rows env (rest ++ p :: post) w) as [[r w2] t2].
    simpl in IH. by subst r.
Qed.

End ComposerFacts.

(** C9: for every group of N players the summary table that
    build_group_report assembles has the header row and then exactly N rows,
    the i-th row being that of the i-th player of the query (photo cell,
    name, phone, label of the latest average); the table is assembled
    whenever the [path] and [url] of every photo can be read. *)
Theorem group_summary_rows (env : Env) (lay : Layout) (group : Group) :
  let summary_of_players (story : list Flowable) :=
    ∃ header rows,
      story = [ header; FSpacer 1 12;
                FTable (summary_header :: rows) [] 1 (GridStyle false) ]
      ∧ length rows = length (players group)
      ∧ Forall2 (λ p row, ∃ img, row = summary_cells p img) (players group) rows in
  yields (group_story env lay group) summary_of_players
  ∧ (Forall (λ p, photo_readable (photo p)) (players group) →
     returns (group_story env lay group) summary_of_players).
Proof.
  cbn zeta.
  assert (H : ∀ story, story = group_story_of env lay group →
              ∃ header rows,
                story = [ header; FSpacer 1 12;
                          FTable (summary_header :: rows) [] 1 (GridStyle false) ]
                ∧ length rows = length (players group)
                ∧ Forall2 (λ p row, ∃ img, row = summary_cells p img) (players group) rows).
  { intros story ->. eexists _, _. split; [reflexivity|].
    split; [by rewrite length_map|].
    induction (players group) as [|p rest IH]; simpl; constructor; eauto. }
  split.
  - apply (yields_weaken _ _ _ (group_story_yields env lay group)), H.
  - intros Hps. apply (returns_weaken _ _ _ (group_story_returns env lay group Hps)), H.
Qed.

(** The table of the sample group: the header row and two rows; the first
    player's photo is found on the disk, the second one's is not. *)
Example group_of_two :
  match (group_story Sample.deployed Sample.working Sample.u12 Sample.world).1.1 with
  | Ok [_; _; FTable (head :: rows) _ _ _] =>
      head = summary_header
      ∧ rows = [ summary_cells Sample.omar
                   (Some (mkImage (ImgFile "/srv/app/media/players/omar.png") 50 50 None));
                 summary_cells Sample.ali None ]
  | _ => False
  end.
Proof. by vm_compute. Qed.

(** A photo on a remote storage stops the story of the group. *)
Example group_with_remote_photo :
  (group_story Sample.deployed Sample.working
     {| g_name := "U12"; g_coach := "Hazem"; players := [Sample.omar; Sample.sara] |}
     Sample.world).1.1 = Raise NotImplementedError.
Proof. by vm_compute. Qed.

Section PlayerFacts.

Context (env : Env) (lay : Layout).














End PlayerFacts.







(** ** The fallback document *)






(** The report of a group with a truncated photo, on the printing engine:
    the fallback document, which shows the name of the group. *)
Example fallback_of_sample_group :
  (build_group_report Sample.deployed Sample.printer Sample.u12 Sample.world).1.1
  = Ok (Sample.pdf ++ list_byte_of_string "Group Report|Group: U12").
Proof. by vm_compute. Qed.

(** A ValueError of the engine is not turned into a fallback document. *)
Example value_error_reaches_caller :
  (build_group_report Sample.bare
     {| sample_style := Sample.style;
        doc_build := λ _ story,
          if existsb is_table story then ([], Some ValueError) else (Sample.pdf, None) |}
     Sample.u12 Sample.world).1.1 = Raise ValueError.
Proof. by vm_compute. Qed.

(** * Further properties *)

(** ** The resolvers, access by access *)

(** X1: _image_from_field closes the field whenever it has opened it, also
    when the read raises, and touches nothing else: its accesses are open,
    read, close after a successful open and the open alone after a failed
    one.  It never returns an image: also when the storage delivers bytes
    that ImageReader accepts, the result is None. *)
Theorem image_from_field_closes (env : Env) (f : FieldFile) (wd ht : Z) (w : World) :
  _image_from_field env f wd ht w = (Ok None, w, field_accesses f)
  ∧ (EvFieldClose (ff_name f) ∈ field_accesses f ↔ ∃ u, ff_open f = Ok u)
  ∧ (∀ data, ff_open f = Ok tt → ff_read f = Ok data → ff_close f = Ok tt →
       image_reader_bytes env data = Ok tt →
       from_storage env f wd ht = Some (mkImage (ImgData data) wd ht None)
       ∧ new_Image (Reader data) wd ht = Raise TypeError).
Proof.
  split; [apply image_from_field_exact|]. split.
  - unfold field_accesses. destruct (ff_open f) as [u|e].
    + split; [eauto|]. intros _. rewrite !elem_of_cons. by right; right; left.
    + split; [|by intros [u Hu]].
      rewrite elem_of_cons, elem_of_nil. intros [H|[]]. discriminate.
  - intros data Ho Hr Hc Hd. unfold from_storage, decodes.
    by rewrite Ho, Hr, Hc, Hd.
Qed.

(** X2: _url_image goes to the network at most once, and never for an empty
    URL or one that does not start with http:// or https://.  It never
    returns an image: also when the bytes are fetched and ImageReader
    accepts them, the result is None. *)
Theorem url_image_fetches (env : Env) (url : string) (wd ht : Z) (w : World) :
  _url_image env url wd ht w
  = (Ok None, w, if truthy url && is_http url then [EvUrlOpen url] else [])
  ∧ (∀ data, truthy url && is_http url = true → urlopen env url = Ok data →
       image_reader_bytes env data = Ok tt →
       from_url env url wd ht = Some (mkImage (ImgData data) wd ht None)).
Proof.
  split; [apply url_image_exact|].
  intros data Hu Ho Hd. unfold from_url, decodes. by rewrite Hu, Ho, Hd.
Qed.

(** X3: _safe_image hands a path to ImageReader only after exists() and
    is_file() have both answered True; a missing path or a directory gives
    None without the file being opened. *)
Theorem safe_image_checks_first (env : Env) (path : string) (wd ht : Z) (w : World) :
  ∃ t, _safe_image env path wd ht w = (Ok (from_file env path wd ht), w, t)
       ∧ decoded_files t
         = match fs_exists env path, fs_is_file env path with
           | Ok true, Ok true => [path]
           | _, _ => []
           end
       ∧ (fs_exists env path = Ok false ∨ fs_is_file env path = Ok false →
          from_file env path wd ht = None).
Proof.
  unfold _safe_image, from_file, new_Image. unfold_m.
  destruct (fs_exists env path) as [[]|]; simpl;
    destruct (fs_is_file env path) as [[]|]; simpl;
    try destruct (image_reader_file env path); simpl;
    eexists; (split; [reflexivity|]); (split; [reflexivity|]);
    intros [H|H]; done.
Qed.

Lemma safe_image_checks_first_witness :
  ∃ t, _safe_image Sample.deployed "/srv/app/core/fonts/DejaVuSans.ttf" 60 60 Sample.world
       = (Ok None, Sample.world, t)
       ∧ decoded_files t = [].
Proof.
  destruct (safe_image_checks_first Sample.deployed "/srv/app/core/fonts/DejaVuSans.ttf"
              60 60 Sample.world) as (t & E & Hd & Hnone).
  exists t. rewrite (Hnone (or_intror eq_refl)) in E. split; [exact E | exact Hd].
Defined.

(** ** The logo *)

Lemma first_readable_from_file (env : Env) (cands : list string) (wd ht : Z) (i : Image) :
  first_readable env cands wd ht = Some i →
  ∃ pre p post, cands = pre ++ p :: post
                ∧ Forall (λ q, from_file env q wd ht = None) pre
                ∧ from_file env p wd ht = Some i.
Proof.
  induction cands as [|c rest IH]; [done|]. cbn [first_readable].
  destruct (from_file env c wd ht) as [j|] eqn:E.
  - intros [= ->]. by exists [], c, rest.
  - intros H. destruct (IH H) as (pre & p & post & -> & Hpre & Hp).
    exists (c :: pre), p, post. split; [done|]. split; [by constructor | done].
Qed.

(** X4: _logo_image never raises and leaves the registry alone.  A logo that
    it returns is the Image of the first candidate file, in list order,
    that existed, was a regular file and was opened by ImageReader, aligned
    to the left.  LOGO_URL is fetched only when no candidate file is
    readable and it is an http(s) URL, and the result is then None, also
    when the URL delivers an image. *)
Theorem logo_image_resolution (env : Env) (wd ht : Z) (w : World) :
  ∃ r t,
    _logo_image env wd ht w = (Ok r, w, t)
    ∧ (∀ img, r = Some img →
         url_events t = []
         ∧ ∃ pre p post,
             logo_candidates env = pre ++ p :: post
             ∧ Forall (λ q, from_file env q wd ht = None) pre
             ∧ img = mkImage (ImgFile p) wd ht (Some "LEFT")
             ∧ checked_file env p)
    ∧ (r = None →
       Forall (λ q, from_file env q wd ht = None) (logo_candidates env)
       ∧ url_events t = if truthy (LOGO_URL env) && is_http (LOGO_URL env)
                        then [LOGO_URL env] else []).
Proof.
  destruct (logo_image_exact env wd ht w) as (t & E & Hu).
  exists (logo_image_spec env wd ht), t. split; [exact E|].
  unfold logo_image_spec in *.
  destruct (first_readable env (logo_candidates env) wd ht) as [i|] eqn:Ef; simpl.
  - split; [|done]. intros img [= <-]. split; [done|].
    destruct (first_readable_from_file env _ wd ht i Ef)
      as (pre & p & post & Hc & Hpre & Hp).
    apply from_file_checked in Hp as [-> Hp]. by exists pre, p, post.
  - split; [done|]. intros _. split; [|done].
    clear E Hu. induction (logo_candidates env) as [|c rest IH]; [constructor|].
    cbn [first_readable] in Ef. destruct (from_file env c wd ht) eqn:Ec; [done|].
    constructor; [done | by apply IH].
Qed.

(** The logo of a deployment whose logo is behind LOGO_URL only, and of a
    machine that has nothing. *)
Example logo_on_samples :
  (_logo_image Sample.bare 60 60 Sample.world).1.1 = Ok None
  ∧ from_url Sample.deployed (LOGO_URL Sample.deployed) 60 60
    = Some (mkImage (ImgData Sample.png) 60 60 None)
  ∧ (_logo_image Sample.deployed 60 60 Sample.world).1.1 = Ok None
  ∧ url_events ((_logo_image Sample.deployed 60 60 Sample.world).2)
    = ["https://academy.example/logo.png"].
Proof. by vm_compute. Qed.

(** ** What a photo may fetch *)

Lemma media_url_relative (env : Env) (url : option string) (u : string) :
  media_url env url = Some u →
  truthy (PUBLIC_BASE_URL env) = true
  ∧ ∃ rel, url = Some rel ∧ String.prefix "/" rel = true
           ∧ u = urljoin env (PUBLIC_BASE_URL env +:+ "/") (lstrip_char "/" rel).
Proof.
  unfold media_url. destruct url as [rel|]; [|done].
  destruct (truthy rel); [|done].
  destruct (truthy (PUBLIC_BASE_URL env)); [|done].
  destruct (String.prefix "/" rel) eqn:E; [|done].
  intros [= <-]. split; [done|]. by exists rel.
Qed.

Lemma getattr_some {A} (attribute : result A) (a : A) :
  getattr_or_none attribute = Ok (Some a) → attribute = Ok a.
Proof.
  unfold getattr_or_none. destruct attribute as [b|e]; [by intros [= ->]|].
  by destruct e.
Qed.

Lemma no_url_in_field_accesses (f : FieldFile) : url_events (field_accesses f) = [].
Proof. unfold field_accesses. by destruct (ff_open f). Qed.

Lemma no_url_in_file_accesses (env : Env) (path : string) :
  url_events (file_accesses env path) = [].
Proof. unfold file_accesses. by repeat case_match. Qed.

(** X5: the photo block goes to the storage first, whenever a photo is set,
    and to the network for one URL at most: PUBLIC_BASE_URL joined with the
    field's URL stripped of its leading slashes.  The fetch happens only
    when the local file of the photo gave no image, PUBLIC_BASE_URL is
    configured, the field's URL starts with a slash and the joined URL is
    an http(s) one; what is fetched is never used: the photo is then
    absent. *)
Theorem photo_fetches_only_media_url (env : Env) (f : FieldFile) (wd ht : Z) (w : World) :
  ∃ r t,
    photo_image env f wd ht w = (r, w, t)
    ∧ (field_set f = true → field_accesses f `prefix_of` t)
    ∧ (field_set f = false → r = Ok None ∧ t = [])
    ∧ (length (url_events t) ≤ 1)%nat
    ∧ ∀ u, u ∈ url_events t →
           r = Ok None
           ∧ from_file env
               (match ff_path f with
                | Ok path => if truthy path then path
                             else path_join (MEDIA_ROOT env) (ff_name f)
                | Raise _ => path_join (MEDIA_ROOT env) (ff_name f)
                end) wd ht = None
           ∧ truthy (PUBLIC_BASE_URL env) = true
           ∧ is_http u = true
           ∧ ∃ rel, ff_url f = Ok rel ∧ String.prefix "/" rel = true
                    ∧ u = urljoin env (PUBLIC_BASE_URL env +:+ "/")
                            (lstrip_char "/" rel).
Proof.
  rewrite photo_image_run. fold (probe_path env f).
  destruct (field_set f).
  2:{ exists (Ok None), []. split; [done|]. split; [done|]. split; [done|].
      split; [simpl; lia|]. by intros u Hu%elem_of_nil. }
  destruct (getattr_or_none (ff_path f)) as [img_path|e] eqn:Ep.
  2:{ eexists _, _. split; [reflexivity|]. split; [done|]. split; [done|].
      rewrite no_url_in_field_accesses. split; [simpl; lia|].
      by intros u Hu%elem_of_nil. }
  cbn zeta. rewrite (local_path_probe env f img_path Ep).
  destruct (from_file env (probe_path env f) wd ht) as [i|] eqn:Ef.
  { eexists _, _. split; [reflexivity|]. split; [intros _; by apply prefix_app_r|].
    split; [done|].
    rewrite url_events_app, no_url_in_field_accesses, no_url_in_file_accesses.
    split; [simpl; lia|]. by intros u Hu%elem_of_nil. }
  destruct (getattr_or_none (ff_url f)) as [url|e] eqn:Eu.
  2:{ eexists _, _. split; [reflexivity|]. split; [intros _; by apply prefix_app_r|].
      split; [done|].
      rewrite url_events_app, no_url_in_field_accesses, no_url_in_file_accesses.
      split; [simpl; lia|]. by intros u Hu%elem_of_nil. }
  eexists _, _. split; [reflexivity|]. split; [intros _; by apply prefix_app_r|].
  split; [done|].
  rewrite !url_events_app, no_url_in_field_accesses, no_url_in_file_accesses.
  cbn [app]. destruct (media_url env url) as [u0|] eqn:Em.
  2:{ split; [simpl; lia|]. by intros u Hu%elem_of_nil. }
  unfold url_accesses. destruct (truthy u0 && is_http u0) eqn:Eh.
  2:{ split; [simpl; lia|]. by intros u Hu%elem_of_nil. }
  split; [simpl; lia|]. intros u Hu%list_elem_of_singleton. subst u.
  apply andb_true_iff in Eh as [_ Eh].
  destruct (media_url_relative env url u0 Em) as (Hbase & rel & -> & Hrel & ->).
  apply getattr_some in Eu. split; [done|]. split; [done|]. split; [done|].
  split; [done|]. by exists rel.
Qed.

(** A photo whose URL is absolute is not fetched, and one whose storage has
    no local paths stops the block. *)
Example absolute_url_is_not_fetched :
  photo_image Sample.deployed
    {| ff_name := "players/ali.png"; ff_path := Raise AttributeError;
       ff_url := Ok "https://academy.example/media/players/ali.png";
       ff_open := Raise OSError; ff_read := Raise OSError; ff_close := Ok tt |}
    50 50 Sample.world
  = (Ok None, Sample.world,
     [EvFieldOpen "players/ali.png"; EvExists "/srv/app/media/players/ali.png"]).
Proof. by vm_compute. Qed.
(** ** The latest evaluation *)

Lemma ordered_before_spec (a b : Evaluation) :
  ordered_before a b = true
  ↔ evaluated_at b < evaluated_at a
    ∨ (evaluated_at a = evaluated_at b ∧ updated_at b < updated_at a).
Proof.
  unfold ordered_before.
  rewrite orb_true_iff, andb_true_iff, !Z.ltb_lt, Z.eqb_eq. tauto.
Qed.

Lemma ordered_before_false (a b : Evaluation) :
  ordered_before a b = false
  ↔ evaluated_at a < evaluated_at b
    ∨ (evaluated_at a = evaluated_at b ∧ updated_at a ≤ updated_at b).
Proof.
  rewrite <- not_true_iff_false, ordered_before_spec. lia.
Qed.

Lemma first_ordered_latest (rows : list Evaluation) (ev : Evaluation) :
  first_ordered rows = Some ev →
  ev ∈ rows ∧ ∀ e, e ∈ rows → ordered_before e ev = false.
Proof.
  revert ev. induction rows as [|e rest IH]; [done|]. intros ev. cbn [first_ordered].
  destruct (first_ordered rest) as [e'|] eqn:E.
  - destruct (IH e' eq_refl) as [Hin Hmax].
    destruct (ordered_before e' e) eqn:Ecmp; intros [= <-].
    + split; [by right|]. intros x [->|Hx]%elem_of_cons; [|by apply Hmax].
      apply ordered_before_spec in Ecmp. apply ordered_before_false. lia.
    + split; [by left|]. intros x [->|Hx]%elem_of_cons.
      * apply ordered_before_false. lia.
      * specialize (Hmax x Hx). apply ordered_before_false in Hmax, Ecmp.
        apply ordered_before_false. lia.
  - intros [= <-]. destruct rest as [|r rest]; [|simpl in E; by repeat case_match].
    split; [by left|]. intros x [->|Hx]%elem_of_cons.
    + apply ordered_before_false. lia.
    + by apply elem_of_nil in Hx.
Qed.

Lemma first_ordered_none (rows : list Evaluation) :
  first_ordered rows = None ↔ rows = [].
Proof.
  split; [|by intros ->]. destruct rows as [|e rest]; [done|].
  simpl. by repeat case_match.
Qed.

(** X6: _latest_evaluation returns None exactly when the player has no
    evaluations relation, the query raises, or it yields no row; otherwise
    it returns one of the rows, and no row is more recent: every row was
    evaluated earlier, or at the same time and updated no later. *)
Theorem latest_evaluation_is_most_recent (player : Player) :
  (_latest_evaluation player = None
   ↔ evaluations player = None
     ∨ (∃ e, evaluations player = Some (Raise e))
     ∨ evaluations player = Some (Ok []))
  ∧ ∀ ev, _latest_evaluation player = Some ev →
          ∃ rows, evaluations player = Some (Ok rows)
                  ∧ ev ∈ rows
                  ∧ ∀ e, e ∈ rows →
                         evaluated_at e < evaluated_at ev
                         ∨ (evaluated_at e = evaluated_at ev
                            ∧ updated_at e ≤ updated_at ev).
Proof.
  unfold _latest_evaluation. split.
  - destruct (evaluations player) as [[rows|e]|].
    + rewrite first_ordered_none. split.
      * intros ->. by right; right.
      * intros [H|[[e H]|H]]; congruence.
    + split; [|done]. intros _. right; left. by exists e.
    + split; [|done]. intros _. by left.
  - intros ev. destruct (evaluations player) as [[rows|e]|]; [|done|done].
    intros H. destruct (first_ordered_latest rows ev H) as [Hin Hmax].
    exists rows. split; [done|]. split; [done|].
    intros e He. by apply ordered_before_false, Hmax.
Qed.

(** Of three evaluations the one evaluated last wins, the update time
    breaking the tie. *)
Example latest_of_three :
  let ev (at_ upd : Z) (coach : string) :=
    mkEvaluation at_ upd VNone VNone VNone VNone VNone VNone VNone VNone VNone
      VNone VNone VNone VNone VNone VNone VNone VNone VNone None coach EmptyString in
  ev_coach <$> _latest_evaluation
    (mkPlayer "Omar" "U12" 11 None Sample.no_photo
       (Some (Ok [ev 10 50 "first"; ev 20 21 "second"; ev 20 30 "third"])))
  = Some "third".
Proof. by vm_compute. Qed.

(** ** The Avg cell of the group table *)

Lemma label_is_not_dash (avg : option float) : rating_label_from_average avg ≠ "-".
Proof.
  pose proof (rating_label_from_average_cases avg) as H.
  unfold rating_labels in H. intros E. rewrite E in H.
  repeat (apply elem_of_cons in H as [H | H]); try discriminate.
  by apply elem_of_nil in H.
Qed.

Lemma rating_label_from_average_finite (a : float) :
  is_finite a = true → rating_label_from_average (Some a) ∈ rating_labels.
Proof.
  intros Hfin. destruct (round_finite a Hfin) as [n Hn].
  rewrite (rating_label_from_average_rounded a n Hn).
  pose proof (clamp_range n). rewrite rating_label_int, bool_decide_true by done.
  by apply spec_label_in_range.
Qed.

(** X7: the Avg cell of a player's row is "-" exactly when the player has
    no latest evaluation; otherwise it is the label of that evaluation's
    average, one of the five labels when the average is a finite number. *)
Theorem summary_average_cell (p : Player) :
  (summary_average p = "-" ↔ _latest_evaluation p = None)
  ∧ ∀ ev, _latest_evaluation p = Some ev →
          summary_average p = rating_label_from_average (average_rating ev)
          ∧ ∀ a, average_rating ev = Some a → is_finite a = true →
                 summary_average p ∈ rating_labels.
Proof.
  unfold summary_average. destruct (_latest_evaluation p) as [ev|].
  - split.
    + split; [|done]. intros H. by apply label_is_not_dash in H.
    + intros ? [= <-]. split; [done|]. intros a -> Hfin.
      by apply rating_label_from_average_finite.
  - split; [done|]. intros ev. discriminate.
Qed.

(** X8: the label of a finite average saturates: an average that rounds to
    1 or less is "Bad", one that rounds to 5 or more is "Excellent", and in
    between it is the label of the rounded value; ties round to the even
    neighbour, so 2.5 is "Not bad" and 3.5 is "Very Good". *)
Theorem average_label_saturates (a : float) (n : Z) :
  Py.round a = Ok n →
  (n ≤ 1 → rating_label_from_average (Some a) = "Bad")
  ∧ (5 ≤ n → rating_label_from_average (Some a) = "Excellent")
  ∧ (1 ≤ n ≤ 5 → rating_label_from_average (Some a) = spec_label n)
  ∧ rating_label_from_average (Some (S754_finite false 5 (-1))) = "Not bad"
  ∧ rating_label_from_average (Some (S754_finite false 7 (-1))) = "Very Good".
Proof.
  intros Hn. rewrite (rating_label_from_average_rounded a n Hn).
  rewrite rating_label_int, bool_decide_true by apply clamp_range.
  unfold clamp. repeat split.
  - intros H. destruct (n <? 1) eqn:E; [done|]. assert (n = 1) as -> by lia. done.
  - intros H. destruct (n <? 1) eqn:E; [lia|].
    destruct (5 <? n) eqn:E'; [done|]. assert (n = 5) as -> by lia. done.
  - intros H. destruct (n <? 1) eqn:E; [lia|]. by destruct (5 <? n) eqn:E'; [lia|].
Qed.

Lemma average_label_saturates_witness :
  rating_label_from_average (Some (S754_finite false 27 (-2))) = "Excellent"
  ∧ rating_label_from_average (Some (S754_finite true 3 0)) = "Bad".
Proof.
  split.
  - apply (average_label_saturates (S754_finite false 27 (-2)) 7); [reflexivity | lia].
  - apply (average_label_saturates (S754_finite true 3 0) (-3)); [reflexivity | lia].
Defined.

(** ** Bilingual ratings and section titles *)

Lemma rating_translation_keys (s tr : string) :
  RATING_TRANSLATIONS_AR !! s = Some tr → s ∈ rating_labels ∧ truthy tr = true.
Proof.
  intros H. apply elem_of_list_to_map_2 in H. unfold rating_labels.
  repeat (apply elem_of_cons in H as [[= -> ->] | H]);
    try (split; [rewrite !elem_of_cons; tauto | reflexivity]).
  by apply elem_of_nil in H.
Qed.

Lemma rating_translation_of_label (r : Z) :
  1 ≤ r ≤ 5 → ∃ tr, translation RATING_TRANSLATIONS_AR (spec_label r) = Some tr
                    ∧ RATING_TRANSLATIONS_AR !! spec_label r = Some tr.
Proof.
  intros Hr. assert (r = 1 ∨ r = 2 ∨ r = 3 ∨ r = 4 ∨ r = 5) as Hc by lia.
  destruct Hc as [-> | [-> | [-> | [-> | ->]]]]; eexists; split; by vm_compute.
Qed.

Lemma decimal_not_label (n : Z) : Py.decimal n ∉ rating_labels.
Proof.
  unfold Py.decimal, NilZero.string_of_int, NilZero.string_of_uint, rating_labels.
  rewrite !elem_of_cons, elem_of_nil.
  destruct (Z.to_int n) as [d | d]; destruct d; simpl;
    intros [H|[H|[H|[H|[H|[]]]]]]; discriminate.
Qed.

Lemma no_translation_outside_labels (s : string) :
  s ∉ rating_labels → translation RATING_TRANSLATIONS_AR s = None.
Proof.
  intros Hs. unfold translation.
  destruct (RATING_TRANSLATIONS_AR !! s) as [tr|] eqn:E; [|done].
  by apply rating_translation_keys in E as [Hin _].
Qed.

Lemma marker_not_label : unknown_marker ∉ rating_labels.
Proof.
  unfold rating_labels. rewrite !elem_of_cons, elem_of_nil.
  intros [H|[H|[H|[H|[H|[]]]]]]; discriminate.
Qed.

(** X9: for a rating r in [1,5] rating_bilingual_html returns the English
    label in Helvetica, a slash, and the shaped Arabic label in the font
    that _register_arabic_font answers; for an integer outside [1,5] and
    for None it returns the English-only tag (of what rating_label gives:
    the decimal text of an integer of at most 4300 digits, the marker for a
    longer one and for None) without asking for the Arabic font at all. *)
Theorem rating_bilingual_html_cases (env : Env) (r : Z) :
  (1 ≤ r ≤ 5 →
   returns (rating_bilingual_html env (VInt r))
     (λ out, ∃ font tr,
        RATING_TRANSLATIONS_AR !! spec_label r = Some tr
        ∧ (font = "ArabicFont" ∨ font = "Helvetica")
        ∧ out = font_tag "Helvetica" (spec_label r) +:+ " / "
                +:+ font_tag font (_shape_arabic env tr)))
  ∧ (r < 1 ∨ 5 < r →
     (∀ w, rating_bilingual_html env (VInt r) w
           = (Ok (font_tag "Helvetica" (rating_label (VInt r))), w, []))
     ∧ (Z.abs r < 10 ^ 4300 → rating_label (VInt r) = Py.decimal r)
     ∧ (10 ^ 4300 ≤ Z.abs r → rating_label (VInt r) = unknown_marker))
  ∧ ∀ w, rating_bilingual_html env VNone w
         = (Ok (font_tag "Helvetica" unknown_marker), w, []).
Proof.
  split; [|split].
  - intros Hr. unfold rating_bilingual_html.
    rewrite rating_label_int, bool_decide_true by done.
    destruct (rating_translation_of_label r Hr) as (tr & -> & Hlook).
    eapply returns_bind; [apply register_arabic_font_returns|].
    intros font Hfont. apply returns_ret. by exists font, tr.
  - intros Hr. rewrite <- str_limit_digits. split; [|split].
    + intros w. unfold rating_bilingual_html.
      rewrite rating_label_int, bool_decide_false by lia.
      case_bool_decide.
      * by rewrite (no_translation_outside_labels _ (decimal_not_label r)).
      * by rewrite (no_translation_outside_labels _ marker_not_label).
    + intros Hd. by rewrite rating_label_int, bool_decide_false, bool_decide_true by lia.
    + intros Hd. rewrite rating_label_int, bool_decide_false by lia.
      by rewrite bool_decide_false by lia.
  - intros w. unfold rating_bilingual_html. cbn [rating_label].
    by rewrite marker_has_no_translation.
Qed.

Lemma rating_bilingual_html_cases_witness :
  returns (rating_bilingual_html Sample.deployed (VInt 2))
    (λ out, ∃ font tr,
       RATING_TRANSLATIONS_AR !! spec_label 2 = Some tr
       ∧ (font = "ArabicFont" ∨ font = "Helvetica")
       ∧ out = font_tag "Helvetica" (spec_label 2) +:+ " / "
               +:+ font_tag font (_shape_arabic Sample.deployed tr))
  ∧ rating_bilingual_html Sample.deployed (VInt 0) Sample.world
    = (Ok (font_tag "Helvetica" (rating_label (VInt 0))), Sample.world, [])
  ∧ rating_label (VInt 0) = Py.decimal 0.
Proof.
  split; [|split].
  - apply (proj1 (rating_bilingual_html_cases Sample.deployed 2)). lia.
  - apply (proj1 (proj2 (rating_bilingual_html_cases Sample.deployed 0))). lia.
  - apply (proj1 (proj2 (rating_bilingual_html_cases Sample.deployed 0))); [lia|].
    by vm_compute.
Defined.

Lemma section_translation_found (title tr : string) :
  SECTION_TRANSLATIONS_AR !! title = Some tr →
  translation SECTION_TRANSLATIONS_AR title = Some tr.
Proof.
  intros H. unfold translation. rewrite H.
  apply elem_of_list_to_map_2 in H.
  repeat (apply elem_of_cons in H as [[= -> ->] | H]); try reflexivity.
  by apply elem_of_nil in H.
Qed.

Lemma arabic_font_or_register_given (env : Env) (name : string) (w : World) :
  truthy name = true →
  arabic_font_or_register env (Some name) w = (Ok name, w, []).
Proof. intros H. unfold arabic_font_or_register. by rewrite H. Qed.

(** X10: a section title of the translation table is rendered in both
    languages: with_section_title_text gives "title (shaped)", and
    with_section_title_html, given a non-empty Arabic font name, gives the
    title in the English font, a slash and the shaped translation in the
    Arabic font, without touching the font registry; a title that is not in
    the table is rendered alone. *)
Theorem section_title_rendering (env : Env) (title ef af : string) (w : World) :
  truthy af = true →
  (∀ tr, SECTION_TRANSLATIONS_AR !! title = Some tr →
     with_section_title_text env title = title +:+ " (" +:+ _shape_arabic env tr +:+ ")"
     ∧ with_section_title_html env title ef (Some af) w
       = (Ok (font_tag ef title +:+ " / " +:+ font_tag af (_shape_arabic env tr)), w, []))
  ∧ (SECTION_TRANSLATIONS_AR !! title = None →
     with_section_title_text env title = title
     ∧ with_section_title_html env title ef (Some af) w = (Ok (font_tag ef title), w, [])).
Proof.
  intros Haf. unfold with_section_title_text, with_section_title_html.
  rewrite (bind_ok _ _ _ _ _ _ (arabic_font_or_register_given env af w Haf)).
  split.
  - intros tr Htr. by rewrite (section_translation_found title tr Htr).
  - intros Hnone. unfold translation. by rewrite Hnone.
Qed.

Lemma section_title_rendering_witness :
  with_section_title_html Sample.deployed "Average Level" "Helvetica-Bold"
    (Some "ArabicFont") Sample.world
  = (Ok (font_tag "Helvetica-Bold" "Average Level" +:+ " / "
         +:+ font_tag "ArabicFont" (_shape_arabic Sample.deployed "المستوى العام")),
     Sample.world, []).
Proof.
  apply (proj1 (section_title_rendering Sample.deployed "Average Level" "Helvetica-Bold"
                  "ArabicFont" Sample.world eq_refl)).
  by vm_compute.
Defined.

(** ** The font registry *)

(** X11: a call of _register_arabic_font only ever adds: the registry grows
    by "ArabicFont" at most, the TrueType search path is never shortened,
    and at most one font file is registered, never when "ArabicFont" was
    registered before; the name it returns is "ArabicFont" exactly when
    "ArabicFont" is in the registry afterwards, so the name can always be
    used in a style. *)
Theorem register_only_adds (env : Env) (w : World) :
  ∃ name w' t,
    _register_arabic_font env w = (Ok name, w', t)
    ∧ registered_fonts w ⊆ registered_fonts w'
    ∧ registered_fonts w' ⊆ {[ "ArabicFont" ]} ∪ registered_fonts w
    ∧ TTFSearchPath w ⊆ TTFSearchPath w'
    ∧ (name = "ArabicFont" ↔ "ArabicFont" ∈ registered_fonts w')
    ∧ (length (registrations t) ≤ 1)%nat
    ∧ (∀ p, p ∈ registrations t →
            ("ArabicFont" ∉ registered_fonts w) ∧ usable_font env p = true
            ∧ p ∈ font_candidates env).
Proof.
  destruct (decide ("ArabicFont" ∈ registered_fonts w)) as [Hin | Hout].
  { exists "ArabicFont", w, []. rewrite register_when_registered by done.
    split_and!; try done.
    - apply union_subseteq_r.
    - simpl. lia.
    - by intros p Hp%elem_of_nil. }
  rewrite register_when_fresh by done.
  set (w0 := mkWorld (registered_fonts w)
               (TTFSearchPath w ∪ {[ path_join (module_dir env) "fonts" ]})).
  destruct (first_font_run env (font_candidates env) w0)
    as [t [(E & Hall & Hreg & Hpr) | (pre & p & post & Hc & Hall & Hp & E & Hreg & Hpr)]];
    rewrite E.
  - exists "Helvetica", w0, t. rewrite Hreg. simpl.
    split_and!; try done.
    + apply union_subseteq_r.
    + apply union_subseteq_l.
    + lia.
    + by intros q Hq%elem_of_nil.
  - exists "ArabicFont", (with_arabic_font w0), t. rewrite Hreg. simpl.
    split_and!; try done.
    + apply union_subseteq_r.
    + apply union_subseteq_l.
    + split; [|done]. intros _. apply elem_of_union_l, elem_of_singleton. reflexivity.
    + intros q Hq%list_elem_of_singleton. subst q. split_and!; try done.
      rewrite Hc. apply elem_of_app. right. by left.
Qed.


(** ** The shape of the stories and the images they embed *)









(** ** The database of the settings module *)

Lemma db_url_set (environ : gmap string string) :
  Settings.is_set (Settings.db_url environ) = true
  ↔ Settings.is_set (Settings.getenv environ "DATABASE_URL") = true
    ∨ Settings.is_set (Settings.getenv environ "POSTGRES_URL") = true
    ∨ Settings.is_set (Settings.getenv environ "PG_URL") = true.
Proof.
  unfold Settings.db_url, Settings.or_else.
  destruct (Settings.is_set (Settings.getenv environ "DATABASE_URL")) eqn:E1;
    [tauto|].
  destruct (Settings.is_set (Settings.getenv environ "POSTGRES_URL")) eqn:E2;
    [tauto|].
  destruct (Settings.is_set (Settings.getenv environ "PG_URL")) eqn:E3; [tauto|].
  split; [done | by intros [|[|]]].
Qed.

(** The connection string is the first of the three URL variables that has
    a non-empty value. *)
Lemma db_url_first (environ : gmap string string) (url : string) :
  Settings.is_set (Settings.db_url environ) = true →
  Settings.db_url environ = Some url →
  (environ !! "DATABASE_URL" = Some url)
  ∨ (Settings.is_set (environ !! "DATABASE_URL") = false
     ∧ environ !! "POSTGRES_URL" = Some url)
  ∨ (Settings.is_set (environ !! "DATABASE_URL") = false
     ∧ Settings.is_set (environ !! "POSTGRES_URL") = false
     ∧ environ !! "PG_URL" = Some url).
Proof.
  unfold Settings.db_url, Settings.or_else, Settings.getenv.
  destruct (Settings.is_set (environ !! "DATABASE_URL")) eqn:E1; [by left|].
  destruct (Settings.is_set (environ !! "POSTGRES_URL")) eqn:E2;
    [by right; left | by right; right].
Qed.


(** X17: the settings select SQLite exactly when none of DATABASE_URL,
    POSTGRES_URL, PG_URL, PGDATABASE and DB_NAME has a non-empty value, and
    PostgreSQL otherwise.  A non-empty URL variable wins over the PG* and
    DB_* variables: the database name is then the URL's path without its
    leading slashes and the port is the URL's, 5432 when it has none.  An
    empty value counts as unset for the five selecting variables.  The
    import of the settings fails, with the exception of urlparse or of its
    port, exactly when a URL variable is selected and the URL or its port
    cannot be parsed; without a URL variable it never fails. *)
Theorem database_selection (urlparse : string → result Settings.ParseResult)
    (BASE_DIR : string) (environ : gmap string string) :
  let outcome := Settings.DATABASES urlparse BASE_DIR environ in
  (∀ url, Settings.is_set (Settings.db_url environ) = true →
          Settings.db_url environ = Some url →
          (environ !! "DATABASE_URL" = Some url)
          ∨ (Settings.is_set (environ !! "DATABASE_URL") = false
             ∧ environ !! "POSTGRES_URL" = Some url)
          ∨ (Settings.is_set (environ !! "DATABASE_URL") = false
             ∧ Settings.is_set (environ !! "POSTGRES_URL") = false
             ∧ environ !! "PG_URL" = Some url))
  ∧ (∀ e, outcome = Raise e
          ↔ ∃ url, Settings.is_set (Settings.db_url environ) = true
                   ∧ Settings.db_url environ = Some url
                   ∧ (urlparse url = Raise e
                      ∨ ∃ parsed, urlparse url = Ok parsed
                                  ∧ (Settings.port parsed = Raise e
                                     ∨ ∃ number,
                                         Settings.port parsed = Ok number
                                         ∧ Py.str_of_int (Settings.port_or_default number)
                                           = Raise e)))
  ∧ (Settings.is_set (Settings.db_url environ) = false → ∃ db, outcome = Ok db)
  ∧ ∀ db, outcome = Ok db →
      (db !! "ENGINE" = Some (VStr Settings.sqlite3)
       ↔ Forall (λ name, Settings.is_set (environ !! name) = false)
           Settings.database_variables)
      ∧ (db !! "ENGINE" = Some (VStr Settings.sqlite3)
         ∨ db !! "ENGINE" = Some (VStr Settings.postgresql))
      ∧ (db !! "ENGINE" = Some (VStr Settings.sqlite3) →
         db !! "NAME" = Some (VStr (path_join BASE_DIR "db.sqlite3"))
         ∧ db !! "HOST" = None)
      ∧ (∀ url, Settings.is_set (Settings.db_url environ) = true →
                Settings.db_url environ = Some url →
                ∃ parsed,
                  urlparse url = Ok parsed
                  ∧ db !! "NAME"
                    = Some (VStr (lstrip_char "/"
                                    (if truthy (Settings.path parsed)
                                     then Settings.path parsed else "/")))
                  ∧ db !! "HOST" = Some (Settings.of_option (Settings.hostname parsed))
                  ∧ (Settings.port parsed = Ok None →
                     db !! "PORT" = Some (VStr "5432")))
      ∧ (Settings.is_set (Settings.db_url environ) = false →
         ∀ name, environ !! "PGDATABASE" = Some name → truthy name = true →
                 db !! "NAME" = Some (VStr name)
                 ∧ db !! "HOST" = Some (VStr (default "localhost" (environ !! "PGHOST")))).
Proof.
  cbn zeta. split; [intros url; apply db_url_first|].
  unfold Settings.DATABASES, Settings.database_variables.
  pose proof (db_url_set environ) as Hurl. unfold Settings.getenv in *.
  destruct (Settings.is_set (Settings.db_url environ)) eqn:Eu.
  { destruct (Settings.db_url environ) as [url|] eqn:Edb; [|done].
    change (default EmptyString (Some url)) with url.
    split; [|split; [done|]].
    - intros e. split.
      + intros H. exists url. split; [done|]. split; [done|].
        destruct (urlparse url) as [parsed|e1]; [|left; congruence].
        right. exists parsed. split; [done|].
        destruct (Settings.port parsed) as [number|e2]; [|left; congruence].
        right. exists number. split; [done|].
        destruct (Py.str_of_int (Settings.port_or_default number)); congruence.
      + intros (url' & _ & [= <-] & [H | (parsed & Hp & [H | (number & Hn & H)])]).
        * by rewrite H.
        * by rewrite Hp, H.
        * by rewrite Hp, Hn, H.
    - intros db Hdb. rewrite !Forall_cons, Forall_nil.
      destruct (urlparse url) as [parsed|e1] eqn:Eparse; [|done].
      destruct (Settings.port parsed) as [number|e2] eqn:Eport; [|done].
      destruct (Py.str_of_int (Settings.port_or_default number)) as [text|e3] eqn:Etext;
        [|done].
      injection Hdb as <-.
      split_and!; try by vm_compute.
      + split; [by vm_compute|]. intros (H1 & H2 & H3 & _).
        destruct (proj1 Hurl eq_refl) as [H|[H|H]]; congruence.
      + by right.
      + intros url' _ [= <-]. exists parsed. split; [done|].
        split; [by vm_compute|]. split; [by vm_compute|].
        intros Hp. rewrite Hp in Eport. injection Eport as <-.
        vm_compute in Etext. injection Etext as <-. by vm_compute. }
  assert (Hnone : Settings.is_set (environ !! "DATABASE_URL") = false
                  ∧ Settings.is_set (environ !! "POSTGRES_URL") = false
                  ∧ Settings.is_set (environ !! "PG_URL") = false).
  { destruct (Settings.is_set (environ !! "DATABASE_URL")),
      (Settings.is_set (environ !! "POSTGRES_URL")),
      (Settings.is_set (environ !! "PG_URL")); try done;
      exfalso; assert (false = true) by (apply Hurl; tauto); done. }
  destruct Hnone as (N1 & N2 & N3).
  split.
  { intros e. split; [by repeat case_match | by intros (url & H & _)]. }
  split; [intros _; repeat case_match; eauto|].
  intros db Hdb. rewrite !Forall_cons, Forall_nil.
  destruct (Settings.is_set (environ !! "PGDATABASE")) eqn:Epg.
  { injection Hdb as <-. split_and!; try by vm_compute.
    - split; [by vm_compute | by intros (_ & _ & _ & H & _)].
    - by right.
    - intros _ name Hname _. rewrite Hname. by vm_compute. }
  destruct (Settings.is_set (environ !! "DB_NAME")) eqn:Edb.
  { injection Hdb as <-. split_and!; try by vm_compute.
    - split; [by vm_compute | by intros (_ & _ & _ & _ & H & _)].
    - by right.
    - intros _ name Hname Ht. rewrite Hname in Epg. simpl in Epg. congruence. }
  injection Hdb as <-. split_and!; try by vm_compute.
  - by left.
  - intros _ name Hname Ht. rewrite Hname in Epg. simpl in Epg. congruence.
Qed.

(** A URL variable that is set but empty does not select PostgreSQL, and
    a port that is not a number stops the import when a URL variable is
    selected, and only then. *)
Example database_of_environments :
  let parse (port : result (option Z)) : string → result Settings.ParseResult :=
    λ _, Ok (Settings.mkParseResult "/academy" None None (Some "db") port) in
  let engine (outcome : result (gmap string value)) : result (option value) :=
    match outcome with Ok db => Ok (db !! "ENGINE") | Raise e => Raise e end in
  engine (Settings.DATABASES (parse (Ok None)) "/srv/app" ∅)
  = Ok (Some (VStr Settings.sqlite3))
  ∧ engine (Settings.DATABASES (parse (Ok None)) "/srv/app"
              {[ "DATABASE_URL" := EmptyString ]})
    = Ok (Some (VStr Settings.sqlite3))
  ∧ engine (Settings.DATABASES (parse (Raise ValueError)) "/srv/app"
              {[ "PG_URL" := "postgres://db:port/academy" ]})
    = Raise ValueError
  ∧ engine (Settings.DATABASES (parse (Raise ValueError)) "/srv/app"
              {[ "PGDATABASE" := "academy" ]})
    = Ok (Some (VStr Settings.postgresql)).
Proof. cbn zeta. split_and!; by vm_compute. Qed.

(** ** The origins of the settings module *)

Lemma lstrip_first (s : string) (c : ascii) :
  Settings.first_char (Settings.lstrip s) = Some c → Settings.isspace c = false.
Proof.
  induction s as [|a s IH]; [done|]. cbn [Settings.lstrip].
  destruct (Settings.isspace a) eqn:E; [done|]. by intros [= <-].
Qed.

Lemma rstrip_last (s : string) (c : ascii) :
  Settings.last_char (Settings.rstrip s) = Some c → Settings.isspace c = false.
Proof.
  induction s as [|a s IH]; [done|]. cbn [Settings.rstrip].
  destruct (Settings.rstrip s) as [|b r] eqn:E.
  - destruct (Settings.isspace a) eqn:Ea; [done|]. by intros [= <-].
  - done.
Qed.

Lemma rstrip_first (s : string) (c : ascii) :
  Settings.first_char s = Some c → Settings.isspace c = false →
  Settings.first_char (Settings.rstrip s) = Some c.
Proof.
  destruct s as [|a s]; [done|]. intros [= ->] Hc. cbn [Settings.rstrip].
  destruct (Settings.rstrip s); [by rewrite Hc | done].
Qed.

Lemma strip_first (s : string) (c : ascii) :
  Settings.first_char (Settings.strip s) = Some c → Settings.isspace c = false.
Proof.
  unfold Settings.strip. destruct (Settings.lstrip s) as [|a r] eqn:E; [done|].
  assert (Ha : Settings.isspace a = false) by (apply (lstrip_first s); by rewrite E).
  by rewrite (rstrip_first (String a r) a eq_refl Ha); intros [= <-].
Qed.

Lemma lstrip_has_char (c : ascii) (s : string) :
  Settings.has_char c s = false → Settings.has_char c (Settings.lstrip s) = false.
Proof.
  induction s as [|a s IH]; [done|]. cbn [Settings.lstrip Settings.has_char].
  intros [Ha Hs]%orb_false_iff. destruct (Settings.isspace a); [by apply IH|].
  simpl. by rewrite Ha, Hs.
Qed.

Lemma rstrip_has_char (c : ascii) (s : string) :
  Settings.has_char c s = false → Settings.has_char c (Settings.rstrip s) = false.
Proof.
  induction s as [|a s IH]; [done|]. cbn [Settings.rstrip Settings.has_char].
  intros [Ha Hs]%orb_false_iff. specialize (IH Hs).
  destruct (Settings.rstrip s) as [|b r].
  - destruct (Settings.isspace a); simpl; [done | by rewrite Ha].
  - simpl in *. by rewrite Ha, IH.
Qed.

Lemma split_pieces (sep : ascii) (s piece : string) :
  piece ∈ Settings.split sep s → Settings.has_char sep piece = false.
Proof.
  revert piece. induction s as [|a s IH]; intros piece; cbn [Settings.split].
  { by intros ->%list_elem_of_singleton. }
  destruct (Ascii.eqb a sep) eqn:E.
  - intros [->|H]%elem_of_cons; [done | by apply IH].
  - destruct (Settings.split sep s) as [|p ps] eqn:Es.
    + intros ->%list_elem_of_singleton. simpl. by rewrite E.
    + intros [->|H]%elem_of_cons.
      * simpl. rewrite E. apply IH. by left.
      * apply IH. by right.
Qed.

Lemma split_not_empty (sep : ascii) (s : string) : Settings.split sep s ≠ [].
Proof.
  destruct s as [|a s]; [done|]. cbn [Settings.split].
  destruct (Ascii.eqb a sep); [done|]. by destruct (Settings.split sep s).
Qed.

Lemma origins_clean (raw o : string) :
  o ∈ Settings.origins raw → Settings.clean_origin o.
Proof.
  unfold Settings.origins. intros (piece & Hpiece & Ho)%list_elem_of_omap.
  destruct (truthy (Settings.strip piece)) eqn:Et; [|done]. injection Ho as <-.
  unfold Settings.clean_origin. split_and!.
  - done.
  - apply strip_first.
  - apply rstrip_last.
  - apply rstrip_has_char, lstrip_has_char, (split_pieces _ raw). done.
Qed.

(** X18: CORS is open to every origin unless DJANGO_DEBUG is set to
    something that is not "true" in any letter case, so also when it is
    unset.  Otherwise the allowed origins are the comma-separated items of
    DJANGO_CORS_ALLOWED_ORIGINS: each is non-empty, has no blank at either
    end and no comma; an unset or blank variable gives the one default
    origin, and the same holds for the items of CSRF_TRUSTED_ORIGINS, which
    stays undefined when its variable is unset or blank. *)
Theorem origin_lists_are_clean (environ : gmap string string) :
  (Settings.CORS environ = Settings.AllowAll
   ↔ Settings.lower (default "true" (environ !! "DJANGO_DEBUG")) = "true")
  ∧ (environ !! "DJANGO_DEBUG" = None → Settings.CORS environ = Settings.AllowAll)
  ∧ (∀ allowed, Settings.CORS environ = Settings.Allowed allowed →
       Forall Settings.clean_origin allowed
       ∧ (Settings.strip (default EmptyString (environ !! "DJANGO_CORS_ALLOWED_ORIGINS"))
          = EmptyString →
          allowed = ["https://football-academy-frontend.vercel.app"]))
  ∧ (∀ trusted, Settings.CSRF_TRUSTED_ORIGINS environ = Some trusted →
       Forall Settings.clean_origin trusted)
  ∧ (Settings.strip (default EmptyString (environ !! "DJANGO_CSRF_TRUSTED_ORIGINS"))
     = EmptyString → Settings.CSRF_TRUSTED_ORIGINS environ = None)
  ∧ Settings.ALLOWED_HOSTS environ ≠ [].
Proof.
  unfold Settings.CORS, Settings.CSRF_TRUSTED_ORIGINS, Settings.DEBUG,
    Settings.ALLOWED_HOSTS, Settings.getenv_or.
  split_and!.
  - destruct (String.eqb_spec
                (Settings.lower (default "true" (environ !! "DJANGO_DEBUG"))) "true")
      as [E|E]; [done|].
    split; [|done]. by repeat case_match.
  - by intros ->.
  - intros allowed. destruct (String.eqb _ "true"); [done|].
    destruct (truthy _) eqn:Et.
    + intros [= <-]. split.
      * apply Forall_forall. intros o. apply origins_clean.
      * intros E. by rewrite E in Et.
    + intros [= <-]. split; [|done].
      constructor; [|constructor]. unfold Settings.clean_origin.
      split_and!; [done | | | done]; intros c; vm_compute; by intros [= <-].
  - intros trusted. destruct (truthy _); [|done]. intros [= <-].
    apply Forall_forall. intros o. apply origins_clean.
  - by intros ->.
  - apply split_not_empty.
Qed.

Example origins_of_a_list :
  Settings.origins " https://a.example , ,https://b.example,"
  = ["https://a.example"; "https://b.example"]
  ∧ Settings.CORS {[ "DJANGO_DEBUG" := "False" ]}
    = Settings.Allowed ["https://football-academy-frontend.vercel.app"]
  ∧ Settings.CORS (<[ "DJANGO_CORS_ALLOWED_ORIGINS" := " , " ]> {[ "DJANGO_DEBUG" := "0" ]})
    = Settings.Allowed []
  ∧ Settings.CORS {[ "DJANGO_DEBUG" := "TRUE" ]} = Settings.AllowAll
  ∧ Settings.CORS ∅ = Settings.AllowAll
  ∧ Settings.ALLOWED_HOSTS ∅ = ["*"].
Proof. by vm_compute. Qed.
